(** * Ownership transfer between Google Drive accounts

    A shallow embedding of [src/services/transferService.js] (class
    [TransferService]) and the properties of its single-file transfer, its
    batch loop and its precondition check.

    Conventions of the embedding:
    - a JavaScript string is a [string]: the sequence of its code units
      (those below 256);
    - an [async] method is a computation in the monad [M]: it threads the
      state of the Drive service and the trace of the calls made so far, and
      either returns a value or throws an [Error] with a message;
    - the Drive client ([google.drive], an external library) is the
      interface [DriveApi]; the properties are proved for every
      implementation of it, and those that speak about the files' state
      afterwards for every implementation that keeps to the contract
      [DriveContract];
    - an [options] argument is a JavaScript object supplied by the caller:
      a finite map from property names to values;
    - [console.log] output is not part of the model. *)

From Stdlib Require Import ZArith List Bool Ascii String.
From stdpp Require Import gmap strings list fin_maps.
Import ListNotations.

Local Open Scope string_scope.
Local Open Scope list_scope.

(** ** JavaScript values carried by option objects *)

Inductive JsVal : Type :=
  | JUndefined
  | JNull
  | JBool (b : bool)
  | JNum (n : Z)
  | JStr (s : string).

(** ToBoolean, as used by [if (v)] and [!v]. *)
Definition truthy (v : JsVal) : bool :=
  match v with
  | JUndefined => false
  | JNull => false
  | JBool b => b
  | JNum n => negb (n =? 0)%Z
  | JStr s => negb (String.eqb s "")
  end.

(** [const { key = dflt } = options]: the default applies when the property
    is missing or [undefined]. *)
Definition destructure (options : gmap string JsVal) (key : string) (dflt : JsVal) : JsVal :=
  match options !! key with
  | None => dflt
  | Some JUndefined => dflt
  | Some v => v
  end.

(** A parameter with a default value, [f(x = dflt)]. *)
Definition default_param (v dflt : JsVal) : JsVal :=
  match v with
  | JUndefined => dflt
  | _ => v
  end.

(** ** Regular expressions, for [isValidEmail] *)

Inductive regex : Type :=
  | Void
  | Eps
  | Class (p : ascii -> bool)
  | Seq (r1 r2 : regex)
  | Alt (r1 r2 : regex)
  | Star (r : regex).

Definition Plus (r : regex) : regex := Seq r (Star r).

Fixpoint nullable (r : regex) : bool :=
  match r with
  | Void => false
  | Eps => true
  | Class _ => false
  | Seq r1 r2 => nullable r1 && nullable r2
  | Alt r1 r2 => nullable r1 || nullable r2
  | Star _ => true
  end.

Fixpoint deriv (c : ascii) (r : regex) : regex :=
  match r with
  | Void => Void
  | Eps => Void
  | Class p => if p c then Eps else Void
  | Seq r1 r2 =>
      if nullable r1
      then Alt (Seq (deriv c r1) r2) (deriv c r2)
      else Seq (deriv c r1) r2
  | Alt r1 r2 => Alt (deriv c r1) (deriv c r2)
  | Star r1 => Seq (deriv c r1) (Star r1)
  end.

(** [^r$] tested against the whole string. *)
Fixpoint matches (r : regex) (s : string) : bool :=
  match s with
  | EmptyString => nullable r
  | String c s' => matches (deriv c r) s'
  end.

(** The class [\s] on code units below 256: TAB, LF, VT, FF, CR, SPACE and
    NO-BREAK SPACE. *)
Definition is_space (c : ascii) : bool :=
  let n := nat_of_ascii c in
  ((9 <=? n)%nat && (n <=? 13)%nat) || (n =? 32)%nat || (n =? 160)%nat.

Definition is_at (c : ascii) : bool := (nat_of_ascii c =? 64)%nat.
Definition is_dot (c : ascii) : bool := (nat_of_ascii c =? 46)%nat.

(** [[^\s@]] *)
Definition not_space_at (c : ascii) : bool := negb (is_space c || is_at c).

(** [/^[^\s@]+@[^\s@]+\.[^\s@]+$/] *)
Definition emailRegex : regex :=
  Seq (Plus (Class not_space_at))
    (Seq (Class is_at)
      (Seq (Plus (Class not_space_at))
        (Seq (Class is_dot)
          (Plus (Class not_space_at))))).

(** Lines 253-256. *)
Definition isValidEmail (email : string) : bool := matches emailRegex email.

(** ** Data of the Drive API *)

(** An entry of [fileDetails.owners]. *)
Record User : Type := mkUser {
  owner_displayName : string;
  owner_emailAddress : option string
}.

(** [response.data] of [files.get]. *)
Record FileDetails : Type := mkFileDetails {
  file_id : string;
  name : string;
  mimeType : string;
  owners : option (list User)
}.

(** An entry of [response.data.permissions]; [emailAddress] is absent on
    permissions that are not granted to a user or group. *)
Record Permission : Type := mkPermission {
  perm_id : string;
  role : string;
  perm_type : string;
  emailAddress : option string;
  displayName : string
}.

(** The [resource] of [permissions.create]. *)
Record PermissionResource : Type := mkResource {
  res_role : string;
  res_type : string;
  res_emailAddress : string
}.

(** ** Results and effects *)

Inductive Res (A : Type) : Type :=
  | Ok (a : A)
  | Throw (message : string).
Arguments Ok {A} a.
Arguments Throw {A} message.

(** What the service asks of the outside world, in the order it asks. *)
Inductive Event : Type :=
  | FilesGet (fileId : string)
  | PermissionsList (fileId : string)
  | PermissionsCreate (fileId : string) (resource : PermissionResource)
  | PermissionsUpdate (fileId permissionId newRole : string)
      (transferOwnership : bool) (sendNotificationEmail : JsVal)
  | Delay (ms : JsVal).

Definition is_write (e : Event) : bool :=
  match e with
  | PermissionsCreate _ _ => true
  | PermissionsUpdate _ _ _ _ _ => true
  | _ => false
  end.

Definition is_delay (e : Event) : bool :=
  match e with
  | Delay _ => true
  | _ => false
  end.

(** The Drive client of the source account: each operation reads and changes
    the state of the service and returns [response.data] or throws. *)
Class DriveApi (S : Type) : Type := {
  files_get : string -> S -> Res FileDetails * S;
  permissions_list : string -> S -> Res (list Permission) * S;
  permissions_create : string -> PermissionResource -> S -> Res string * S;
  permissions_update : string -> string -> string -> bool -> JsVal -> S -> Res unit * S
}.

Record World (S : Type) : Type := mkWorld {
  drive : S;
  trace : list Event
}.
Arguments mkWorld {S} drive trace.
Arguments drive {S} w.
Arguments trace {S} w.

Definition M (S A : Type) : Type := World S -> Res A * World S.

Definition ret {S A} (a : A) : M S A := fun w => (Ok a, w).

Definition throw {S A} (message : string) : M S A := fun w => (Throw message, w).

Definition bind {S A B} (m : M S A) (k : A -> M S B) : M S B :=
  fun w =>
    match m w with
    | (Ok a, w') => k a w'
    | (Throw message, w') => (Throw message, w')
    end.

(** [try { m } catch (error) { handler(error.message) }] *)
Definition try_catch {S A} (m : M S A) (handler : string -> M S A) : M S A :=
  fun w =>
    match m w with
    | (Ok a, w') => (Ok a, w')
    | (Throw message, w') => handler message w'
    end.

(** One awaited request to the Drive service. *)
Definition call {S A} (e : Event) (op : S -> Res A * S) : M S A :=
  fun w =>
    let (r, s') := op (drive w) in
    (r, mkWorld s' (trace w ++ [e])).

Declare Scope js_scope.
Delimit Scope js_scope with js.
Notation "x <- m ;; k" := (bind m (fun x => k))
  (at level 100, m at next level, right associativity) : js_scope.
Notation "m ;;; k" := (bind m (fun _ => k))
  (at level 100, right associativity) : js_scope.

(** [if (b) { await m; }] *)
Definition when_ {S A} (b : bool) (m : M S A) : M S unit :=
  if b then bind m (fun _ => ret tt) else ret tt.

(** ** What the methods return *)

(** The object returned by [transferFileOwnership], or built by the batch
    loop for a failed file. *)
Record Outcome : Type := mkOutcome {
  success : bool;
  message : option string;
  error : option string;
  fileId : string;
  fileName : option string;
  newOwner : option string
}.

Record Summary : Type := mkSummary {
  successful : nat;
  failed : nat;
  total : nat
}.

Record BatchResult : Type := mkBatchResult {
  results : list Outcome;
  summary : Summary
}.

(** [{valid: true, currentOwner, fileName}] or [{valid: false, error}]. *)
Inductive Preconditions : Type :=
  | Valid (currentOwner : option string) (fileName : string)
  | Invalid (error : string).

Definition valid (p : Preconditions) : bool :=
  match p with
  | Valid _ _ => true
  | Invalid _ => false
  end.

(** [perm => perm.emailAddress === email] *)
Definition has_email (email : string) (perm : Permission) : bool :=
  bool_decide (emailAddress perm = Some email).

(** [existingPermission && existingPermission.role === 'owner'] *)
Definition is_owner_permission (existingPermission : option Permission) : bool :=
  match existingPermission with
  | Some perm => bool_decide (role perm = "owner")
  | None => false
  end.

Definition is_some {A} (o : option A) : bool :=
  match o with
  | Some _ => true
  | None => false
  end.

(** ** The service *)

Section TransferService.
Context {S : Type} {sourceDrive : DriveApi S}.

Local Open Scope js_scope.

(** Lines 183-193. *)
Definition getFileDetails (fileId : string) : M S FileDetails :=
  try_catch
    (call (FilesGet fileId) (files_get fileId))
    (fun msg => throw ("Failed to get file details: " +:+ msg)).

(** Lines 198-208. *)
Definition getFilePermissions (fileId : string) : M S (list Permission) :=
  try_catch
    (call (PermissionsList fileId) (permissions_list fileId))
    (fun msg => throw ("Failed to get permissions: " +:+ msg)).

(** Lines 130-148; the one call site leaves [type] to its default, ['user']. *)
Definition addPermission (fileId emailAddress role type : string) : M S string :=
  try_catch
    (let permission := mkResource role type emailAddress in
     call (PermissionsCreate fileId permission) (permissions_create fileId permission))
    (fun msg => throw ("Failed to add permission: " +:+ msg)).

(** Lines 154-178. *)
Definition promoteToOwner (fileId emailAddress : string) (sendNotificationEmail : JsVal)
  : M S unit :=
  let sendNotificationEmail := default_param sendNotificationEmail (JBool false) in
  try_catch
    (permissions <- getFilePermissions fileId ;;
     match find (has_email emailAddress) permissions with
     | None =>
         throw ("User " +:+ emailAddress +:+ " does not have permission to this file")
     | Some userPermission =>
         call (PermissionsUpdate fileId (perm_id userPermission) "owner" true
                 sendNotificationEmail)
              (permissions_update fileId (perm_id userPermission) "owner" true
                 sendNotificationEmail)
     end)
    (fun msg => throw ("Failed to promote to owner: " +:+ msg)).

(** Lines 214-216: the promise of [setTimeout] always resolves. *)
Definition delay (ms : JsVal) : M S unit :=
  fun w => (Ok tt, mkWorld (drive w) (trace w ++ [Delay ms])).

(** Lines 16-66. The option [moveToNewOwnerDrive] is read and never used. *)
Definition transferFileOwnership (fileId newOwnerEmail : string)
    (options : gmap string JsVal) : M S Outcome :=
  try_catch
    (let transferOwnership := destructure options "transferOwnership" (JBool true) in
     let sendNotificationEmail := destructure options "sendNotificationEmail" (JBool false) in
     fileDetails <- getFileDetails fileId ;;
     existingPermissions <- getFilePermissions fileId ;;
     let existingPermission := find (has_email newOwnerEmail) existingPermissions in
     if is_owner_permission existingPermission then
       ret (mkOutcome true (Some "Already owner") None fileId
              (Some (name fileDetails)) None)
     else
       when_ (negb (is_some existingPermission))
         (addPermission fileId newOwnerEmail "writer" "user") ;;;
       when_ (truthy transferOwnership)
         (promoteToOwner fileId newOwnerEmail sendNotificationEmail) ;;;
       ret (mkOutcome true (Some "Ownership transferred successfully") None fileId
              (Some (name fileDetails)) (Some newOwnerEmail)))
    (fun msg => throw ("Transfer failed: " +:+ msg)).

(** Lines 81-110, the body of [for (let i = 0; i < fileIds.length; i++)]: [rest] is what
    is left of [fileIds] from index [i] on, [results] the array filled so
    far. *)
Fixpoint batchLoop (newOwnerEmail : string) (options : gmap string JsVal)
    (delayBetweenTransfers continueOnError : JsVal) (fileIds_length i : nat)
    (rest : list string) (results : list Outcome) (w : World S)
  : list Outcome * World S :=
  match rest with
  | [] => (results, w)
  | fileId :: rest' =>
      match transferFileOwnership fileId newOwnerEmail options w with
      | (Ok result, w1) =>
          let results1 := results ++ [result] in
          let w2 :=
            if (Z.of_nat i <? Z.of_nat fileIds_length - 1)%Z
            then snd (delay delayBetweenTransfers w1)
            else w1 in
          batchLoop newOwnerEmail options delayBetweenTransfers continueOnError
            fileIds_length (Datatypes.S i) rest' results1 w2
      | (Throw message, w1) =>
          let errorResult := mkOutcome false None (Some message) fileId None None in
          let results1 := results ++ [errorResult] in
          if negb (truthy continueOnError)
          then (results1, w1)
          else batchLoop newOwnerEmail options delayBetweenTransfers continueOnError
                 fileIds_length (Datatypes.S i) rest' results1 w1
      end
  end.

(** Lines 72-124. *)
Definition batchTransferOwnership (fileIds : list string) (newOwnerEmail : string)
    (options : gmap string JsVal) : M S BatchResult :=
  fun w =>
    let delayBetweenTransfers := destructure options "delayBetweenTransfers" (JNum 1000) in
    let continueOnError := destructure options "continueOnError" (JBool true) in
    let (results, w') :=
      batchLoop newOwnerEmail options delayBetweenTransfers continueOnError
        (length fileIds) 0 fileIds [] w in
    let successful := length (List.filter (fun r => success r) results) in
    let failed := length (List.filter (fun r => negb (success r)) results) in
    (Ok (mkBatchResult results (mkSummary successful failed (length fileIds))), w').

(** [fileDetails.owners && fileDetails.owners[0]] *)
Definition first_owner (fileDetails : FileDetails) : option User :=
  match owners fileDetails with
  | Some (currentOwner :: _) => Some currentOwner
  | Some [] => None
  | None => None
  end.

(** Lines 221-248. *)
Definition validateTransferPreconditions (fileId newOwnerEmail : string)
  : M S Preconditions :=
  try_catch
    (fileDetails <- getFileDetails fileId ;;
     match first_owner fileDetails with
     | None => throw "Could not determine current file owner"
     | Some currentOwner =>
         if negb (isValidEmail newOwnerEmail)
         then throw "Invalid new owner email address"
         else ret (Valid (owner_emailAddress currentOwner) (name fileDetails))
     end)
    (fun msg => ret (Invalid msg)).

End TransferService.

(** ** A Drive service held in memory

    The implementation of [DriveApi] on which the sample runs are made, and
    which keeps to the contract [DriveContract]: a store of files with
    their permissions, whose requests fail only for an unknown file or
    permission (and for a promotion to owner without the transfer flag). *)

Record DriveFile : Type := mkDriveFile {
  details : FileDetails;
  permissions : list Permission
}.

Definition not_found {A} (fileId : string) (d : gmap string DriveFile)
  : Res A * gmap string DriveFile :=
  (Throw ("File not found: " +:+ fileId +:+ "."), d).

Definition mem_files_get (fileId : string) (d : gmap string DriveFile)
  : Res FileDetails * gmap string DriveFile :=
  match d !! fileId with
  | Some f => (Ok (details f), d)
  | None => not_found fileId d
  end.

Definition mem_permissions_list (fileId : string) (d : gmap string DriveFile)
  : Res (list Permission) * gmap string DriveFile :=
  match d !! fileId with
  | Some f => (Ok (permissions f), d)
  | None => not_found fileId d
  end.

(** The file after [permissions.create]: the new permission is appended. *)
Definition add_permission_file (resource : PermissionResource) (f : DriveFile) : DriveFile :=
  let pid := "perm-" +:+ res_emailAddress resource in
  let perm := mkPermission pid (res_role resource) (res_type resource)
                (Some (res_emailAddress resource)) "" in
  mkDriveFile (details f) (permissions f ++ [perm]).

Definition mem_permissions_create (fileId : string) (resource : PermissionResource)
    (d : gmap string DriveFile) : Res string * gmap string DriveFile :=
  match d !! fileId with
  | Some f =>
      (Ok ("perm-" +:+ res_emailAddress resource),
       <[fileId := add_permission_file resource f]> d)
  | None => not_found fileId d
  end.

(** The permission [permissionId] takes the new role; when that role is
    owner, the former owners become writers. *)
Definition set_role (permissionId newRole : string) (perm : Permission) : Permission :=
  if bool_decide (perm_id perm = permissionId) then
    mkPermission (perm_id perm) newRole (perm_type perm) (emailAddress perm)
      (displayName perm)
  else if bool_decide (newRole = "owner") && bool_decide (role perm = "owner") then
    mkPermission (perm_id perm) "writer" (perm_type perm) (emailAddress perm)
      (displayName perm)
  else perm.

Definition owners_of (perms : list Permission) : list User :=
  map (fun perm => mkUser (displayName perm) (emailAddress perm))
    (List.filter (fun perm => bool_decide (role perm = "owner")) perms).

(** The file after [permissions.update]; a new owner is also recorded in
    the file's [owners]. *)
Definition update_file (permissionId newRole : string) (f : DriveFile) : DriveFile :=
  let perms := map (set_role permissionId newRole) (permissions f) in
  let fd := details f in
  let fd' := if bool_decide (newRole = "owner")
             then mkFileDetails (file_id fd) (name fd) (mimeType fd) (Some (owners_of perms))
             else fd in
  mkDriveFile fd' perms.

Definition mem_permissions_update (fileId permissionId newRole : string)
    (transferOwnership : bool) (sendNotificationEmail : JsVal)
    (d : gmap string DriveFile) : Res unit * gmap string DriveFile :=
  match d !! fileId with
  | Some f =>
      if negb (existsb (fun perm => bool_decide (perm_id perm = permissionId)) (permissions f))
      then (Throw ("Permission not found: " +:+ permissionId +:+ "."), d)
      else if bool_decide (newRole = "owner") && negb transferOwnership
      then (Throw "The transferOwnership parameter must be enabled when the permission role is 'owner'.", d)
      else (Ok tt, <[fileId := update_file permissionId newRole f]> d)
  | None => not_found fileId d
  end.

#[export] Instance MemDrive : DriveApi (gmap string DriveFile) := {
  files_get := mem_files_get;
  permissions_list := mem_permissions_list;
  permissions_create := mem_permissions_create;
  permissions_update := mem_permissions_update
}.

(** The target holds a permission with role owner on the file. *)
Definition holds_owner (d : gmap string DriveFile) (fileId email : string) : bool :=
  match d !! fileId with
  | Some f =>
      existsb (fun perm => has_email email perm && bool_decide (role perm = "owner"))
        (permissions f)
  | None => false
  end.

(** Did the call end in an outcome with [success: true]? *)
Definition succeeded (r : Res Outcome) : bool :=
  match r with
  | Ok o => success o
  | Throw _ => false
  end.

(** ** Sample data *)

Definition alice : string := "a@x.com".
Definition bob : string := "b@x.com".

Definition file1 : DriveFile :=
  mkDriveFile (mkFileDetails "F1" "report.txt" "text/plain" (Some [mkUser "Alice" (Some alice)]))
    [mkPermission "perm-a@x.com" "owner" "user" (Some alice) "Alice"].

Definition file3 : DriveFile :=
  mkDriveFile (mkFileDetails "F3" "notes.txt" "text/plain" (Some [mkUser "Alice" (Some alice)]))
    [mkPermission "perm-a@x.com" "owner" "user" (Some alice) "Alice";
     mkPermission "perm-b@x.com" "reader" "user" (Some bob) "Bob"].

(** A Drive with the files F1 and F3, and no file F2. *)
Definition drive0 : gmap string DriveFile := <["F1" := file1]> (<["F3" := file3]> ∅).

Definition world0 : World (gmap string DriveFile) := mkWorld drive0 [].

(** * The code around the transfer service

    [src/utils/validation.js] (class [ValidationUtils]), the listing of
    [src/auth/tokenManager.js] and the input loop of [src/app.js], which
    prepare what the transfer service is called with. *)

(** ** Operations on strings *)

Fixpoint string_forall (p : ascii -> bool) (s : string) : bool :=
  match s with
  | EmptyString => true
  | String c s' => p c && string_forall p s'
  end.

Fixpoint string_exists (p : ascii -> bool) (s : string) : bool :=
  match s with
  | EmptyString => false
  | String c s' => p c || string_exists p s'
  end.

(** [s.replace(/[...]/g, '')]: every character of the class is removed. *)
Fixpoint remove_chars (p : ascii -> bool) (s : string) : string :=
  match s with
  | EmptyString => EmptyString
  | String c s' => if p c then remove_chars p s' else String c (remove_chars p s')
  end.

Fixpoint trimStart (s : string) : string :=
  match s with
  | EmptyString => EmptyString
  | String c s' => if is_space c then trimStart s' else s
  end.

Fixpoint trimEnd (s : string) : string :=
  match s with
  | EmptyString => EmptyString
  | String c s' =>
      match trimEnd s' with
      | EmptyString => if is_space c then EmptyString else String c EmptyString
      | t => String c t
      end
  end.

(** [s.trim()]: white space and line terminators (the characters of [\s])
    are removed at both ends. *)
Definition trim (s : string) : string := trimEnd (trimStart s).

(** [s.endsWith(suffix)] *)
Definition endsWith (s suffix : string) : bool :=
  (String.length suffix <=? String.length s)%nat
  && String.eqb (substring (String.length s - String.length suffix)
                   (String.length suffix) s) suffix.

(** [s.replace(pattern, replacement)] with a string pattern: the first
    occurrence is replaced (the replacement holds no [$] here). *)
Fixpoint replace_first (pattern replacement s : string) : string :=
  if String.prefix pattern s
  then replacement +:+ substring (String.length pattern)
                         (String.length s - String.length pattern) s
  else match s with
       | EmptyString => EmptyString
       | String c s' => String c (replace_first pattern replacement s')
       end.

(** [s.includes(pattern)] *)
Fixpoint includes (pattern s : string) : bool :=
  String.prefix pattern s
  || match s with
     | EmptyString => false
     | String c s' => includes pattern s'
     end.

(** The part of [s] after its first [@] (empty when there is none). *)
Fixpoint after_at (s : string) : string :=
  match s with
  | EmptyString => EmptyString
  | String c s' => if is_at c then s' else after_at s'
  end.

(** ** Bounded repetition in regular expressions *)

Definition Opt (r : regex) : regex := Alt Eps r.

(** [r{n}] *)
Fixpoint Times (n : nat) (r : regex) : regex :=
  match n with
  | O => Eps
  | Datatypes.S n' => Seq r (Times n' r)
  end.

(** [r{0,n}] *)
Fixpoint UpTo (n : nat) (r : regex) : regex :=
  match n with
  | O => Eps
  | Datatypes.S n' => Opt (Seq r (UpTo n' r))
  end.

(** [r{lo,hi}] *)
Definition Range (lo hi : nat) (r : regex) : regex :=
  Seq (Times lo r) (UpTo (hi - lo) r).

(** A character class given by the list of its characters. *)
Definition one_of (chars : string) (c : ascii) : bool :=
  string_exists (Ascii.eqb c) chars.

Definition in_range (lo hi : nat) (c : ascii) : bool :=
  ((lo <=? nat_of_ascii c)%nat && (nat_of_ascii c <=? hi)%nat).

(** [[a-zA-Z0-9]] *)
Definition is_alnum (c : ascii) : bool :=
  in_range 97 122 c || in_range 65 90 c || in_range 48 57 c.

(** [strict equality] of two values, [a === b]. *)
Definition strict_eq (a b : JsVal) : bool :=
  match a, b with
  | JUndefined, JUndefined => true
  | JNull, JNull => true
  | JBool x, JBool y => Bool.eqb x y
  | JNum x, JNum y => (x =? y)%Z
  | JStr x, JStr y => String.eqb x y
  | _, _ => false
  end.

Module ValidationUtils.

(** [[a-zA-Z0-9.!#$%&'*+/=?^_`{|}~-]] *)
Definition is_local_char (c : ascii) : bool :=
  is_alnum c || one_of ".!#$%&'*+/=?^_`{|}~-" c.

(** [[a-zA-Z0-9-]] *)
Definition is_label_char (c : ascii) : bool :=
  is_alnum c || one_of "-" c.

(** [[a-zA-Z0-9](?:[a-zA-Z0-9-]{0,61}[a-zA-Z0-9])?] *)
Definition label : regex :=
  Seq (Class is_alnum)
      (Opt (Seq (Range 0 61 (Class is_label_char)) (Class is_alnum))).

(** The pattern of line 13. *)
Definition emailRegex : regex :=
  Seq (Plus (Class is_local_char))
    (Seq (Class is_at)
      (Seq label
        (Star (Seq (Class is_dot) label)))).

(** Lines 7-16. *)
Definition isValidEmail (email : JsVal) : bool :=
  match email with
  | JStr s =>
      if negb (truthy email) then false
      else matches emailRegex s && (String.length s <=? 254)%nat
  | _ => false
  end.

(** [[a-zA-Z0-9_-]] *)
Definition is_id_char (c : ascii) : bool :=
  is_alnum c || one_of "_-" c.

(** [/^[a-zA-Z0-9_-]{28,44}$/] *)
Definition fileIdRegex : regex := Range 28 44 (Class is_id_char).

(** Lines 22-31. *)
Definition isValidFileId (fileId : JsVal) : bool :=
  match fileId with
  | JStr s =>
      if negb (truthy fileId) then false
      else matches fileIdRegex s
  | _ => false
  end.

(** [{valid: true}] or [{valid: false, error}]. *)
Record FileIdsValidation : Type := mkFileIdsValidation {
  ids_valid : bool;
  ids_error : option string
}.

(** Lines 37-56, for an array of strings. *)
Definition validateFileIds (fileIds : list string) : FileIdsValidation :=
  if (length fileIds =? 0)%nat then
    mkFileIdsValidation false (Some "At least one file ID must be provided")
  else
    let invalidIds := List.filter (fun id => negb (isValidFileId (JStr id))) fileIds in
    if (0 <? length invalidIds)%nat then
      mkFileIdsValidation false
        (Some ("Invalid file IDs found: " +:+ String.concat ", " invalidIds))
    else mkFileIdsValidation true None.

Record ParamsValidation : Type := mkParamsValidation {
  params_valid : bool;
  errors : list string
}.

(** [if (cond) errors.push(msg)] *)
Definition push_if (cond : bool) (msg : string) (errors : list string) : list string :=
  if cond then errors ++ [msg] else errors.

(** Lines 62-90. *)
Definition validateTransferParams (sourceEmail targetEmail : JsVal)
    (fileIds : list string) : ParamsValidation :=
  let errors := [] in
  let errors := push_if (negb (isValidEmail sourceEmail))
                  "Invalid source email address" errors in
  let errors := push_if (negb (isValidEmail targetEmail))
                  "Invalid target email address" errors in
  let errors := push_if (strict_eq sourceEmail targetEmail)
                  "Source and target email addresses cannot be the same" errors in
  let fileIdValidation := validateFileIds fileIds in
  let errors :=
    if negb (ids_valid fileIdValidation)
    then errors ++ match ids_error fileIdValidation with
                   | Some e => [e]
                   | None => []
                   end
    else errors in
  mkParamsValidation (length errors =? 0)%nat errors.

(** The class of line 103: less-than, greater-than, double quote and
    apostrophe (the characters 60, 62, 34 and 39). *)
Definition is_dangerous (c : ascii) : bool :=
  let n := nat_of_ascii c in
  (n =? 60)%nat || (n =? 62)%nat || (n =? 34)%nat || (n =? 39)%nat.

(** Lines 96-105. *)
Definition sanitizeInput (input : JsVal) : JsVal :=
  match input with
  | JStr s => JStr (substring 0 500 (remove_chars is_dangerous (trim s)))
  | _ => input
  end.

End ValidationUtils.

(** ** The users with saved tokens *)

(** An error of [fs], with its [code]. *)
Record FsError : Type := mkFsError {
  code : string;
  fs_message : string
}.

Module TokenManager.

(** Lines 47-59 of [tokenManager.js], as a function of what [fs.readdir]
    gives for the tokens directory: the names of its entries, or an error. *)
Definition listAuthenticatedUsers (readdir : FsError + list string)
  : FsError + list string :=
  match readdir with
  | inr files =>
      inr (map (fun file => replace_first ".json" "" file)
             (List.filter (fun file => endsWith file ".json") files))
  | inl error =>
      if String.eqb (code error) "ENOENT" then inr [] else inl error
  end.

End TokenManager.

(** ** The input loop for file ids *)

(** [getMultipleFileIds] of [app.js], on the lines the user answers to the
    prompt: the loop ends at the first answer that is empty once trimmed;
    [None] when the answers end before that (the loop is still asking). *)
Fixpoint getMultipleFileIds_from (answers : list string) (fileIds : list string)
  : option (list string) :=
  match answers with
  | [] => None
  | answer :: answers' =>
      let fileId := trim answer in
      if String.eqb fileId "" then Some fileIds
      else if ValidationUtils.isValidFileId (JStr fileId)
           then getMultipleFileIds_from answers' (fileIds ++ [fileId])
           else getMultipleFileIds_from answers' fileIds
  end.

Definition getMultipleFileIds (answers : list string) : option (list string) :=
  getMultipleFileIds_from answers [].

(** ** Notions used in the statements *)

(** The events a computation added to the trace. *)
Definition emitted {S} (w w' : World S) : list Event :=
  drop (length (trace w)) (trace w').

Definition count_delays (evs : list Event) : nat :=
  length (List.filter is_delay evs).

Definition count_success (os : list Outcome) : nat :=
  length (List.filter (fun r => success r) os).

(** The shape of the outcomes when the loop stops at the first failure:
    either every file was processed with success, or the outcomes end with
    the only failure. *)
Definition halted_shape (new : list Outcome) (rest : list string) : Prop :=
  (Forall (fun o => success o = true) new /\ length new = length rest)
  \/ (exists oks e, new = oks ++ [e]
                    /\ Forall (fun o => success o = true) oks
                    /\ success e = false).

(** What one run of the loop adds, for the wait [d] and the given
    [continueOnError]: outcomes [new] for a prefix of the remaining files
    [rest], in their order, and events [evs]. *)
Record loop_post (d continueOnError : JsVal) (rest : list string)
    (new : list Outcome) (evs : list Event) : Prop := {
  post_order : map fileId new = take (length new) rest;
  post_length : length new <= length rest;
  post_continue : truthy continueOnError = true -> length new = length rest;
  post_halt : truthy continueOnError = false -> halted_shape new rest;
  post_delay_value : Forall (fun e => is_delay e = true -> e = Delay d) evs;
  post_delay_count :
    count_delays evs = count_success (take (length rest - 1) new)
}.

(** The outcomes of a batch run. *)
Definition batch_results {S} (run : Res BatchResult * World S) : list Outcome :=
  match fst run with
  | Ok r => results r
  | Throw _ => []
  end.

(** ** What is asked of a Drive

    Where a property speaks about the role of the target after a call, it is
    stated for every Drive that keeps to this contract; the Drive held in
    memory is one. *)

(** The listing of the file, asked in state [s], has a permission for the
    email, and the one the lookup yields has role owner. *)
Definition owner_in {S} {api : DriveApi S} (s : S) (fid email : string) : Prop :=
  exists perms s',
    permissions_list fid s = (Ok perms, s')
    /\ is_owner_permission (find (has_email email) perms) = true.

Record DriveContract {S} (api : DriveApi S) : Prop := {
  (** reading changes nothing *)
  get_reads : forall f s r s', files_get f s = (r, s') -> s' = s;
  list_reads : forall f s r s', permissions_list f s = (r, s') -> s' = s;
  (** a refused write changes nothing *)
  create_refused : forall f res s m s',
    permissions_create f res s = (Throw m, s') -> s' = s;
  update_refused : forall f pid r t n s m s',
    permissions_update f pid r t n s = (Throw m, s') -> s' = s;
  (** a file that cannot be fetched cannot be listed *)
  get_list : forall f s m,
    fst (files_get f s) = Throw m -> exists m', fst (permissions_list f s) = Throw m';
  (** a permission created for an email that had none is listed afterwards,
      with the role asked *)
  create_done : forall f res s id s' perms s0,
    permissions_list f s = (Ok perms, s0) ->
    find (has_email (res_emailAddress res)) perms = None ->
    permissions_create f res s = (Ok id, s') ->
    exists perms' p,
      permissions_list f s' = (Ok perms', s')
      /\ find (has_email (res_emailAddress res)) perms' = Some p
      /\ role p = res_role res;
  (** a promotion that is accepted makes the email's permission the owner *)
  update_done : forall f e s perms s0 p n u s',
    permissions_list f s = (Ok perms, s0) ->
    find (has_email e) perms = Some p ->
    permissions_update f (perm_id p) "owner" true n s = (Ok u, s') ->
    owner_in s' f e
}.

(** ** Files processed in turn *)

(** Only waits lie between [w] and [w']. *)
Definition waits {S} (w w' : World S) : Prop :=
  drive w' = drive w
  /\ exists ds, trace w' = trace w ++ ds /\ Forall (fun e => is_delay e = true) ds.

(** What the batch records for a file: the outcome the transfer returned, or
    the failure with the message it threw. *)
Definition outcome_of (fid : string) (r : Res Outcome) : Outcome :=
  match r with
  | Ok o => o
  | Throw msg => mkOutcome false None (Some msg) fid None None
  end.

(** [processed email options fids w os w']: from [w] to [w'] the files
    [fids] were transferred one after the other, each in the world the one
    before left, with nothing but waits in between and at the end, and [os]
    are their outcomes. *)
Inductive processed {S} {api : DriveApi S} (email : string) (options : gmap string JsVal)
  : list string -> World S -> list Outcome -> World S -> Prop :=
  | processed_nil w w' :
      waits w w' -> processed email options [] w [] w'
  | processed_cons fid fids w w0 r w1 os w' :
      waits w w0 ->
      transferFileOwnership fid email options w0 = (r, w1) ->
      processed email options fids w1 os w' ->
      processed email options (fid :: fids) w (outcome_of fid r :: os) w'.

(** ** The steps of a transfer *)

(** The permission of the target is in place: from the state [s] the file
    was fetched as [fd] and listed, and either the listing has a permission
    for the email, not an owner's, or it has none and the writer permission
    was created. [reqs] are the requests made so far and [s'] is the state
    they left. *)
Definition permission_in_place {S} {api : DriveApi S} (fid email : string) (s : S)
    (fd : FileDetails) (reqs : list Event) (s' : S) : Prop :=
  exists s1 perms s2,
    files_get fid s = (Ok fd, s1)
    /\ permissions_list fid s1 = (Ok perms, s2)
    /\ ((exists p, find (has_email email) perms = Some p
                   /\ role p <> "owner"
                   /\ reqs = [FilesGet fid; PermissionsList fid]
                   /\ s' = s2)
        \/ (find (has_email email) perms = None
            /\ exists id,
                 permissions_create fid (mkResource "writer" "user" email) s2 = (Ok id, s')
                 /\ reqs = [FilesGet fid; PermissionsList fid;
                            PermissionsCreate fid (mkResource "writer" "user" email)])).

(** The file was fetched and listed from the state [s], the listing left
    the state [s'], and the listed permission of the email has role owner. *)
Definition listed_owner {S} {api : DriveApi S} (fid email : string) (s s' : S) : Prop :=
  exists fd s1 perms p,
    files_get fid s = (Ok fd, s1)
    /\ permissions_list fid s1 = (Ok perms, s')
    /\ find (has_email email) perms = Some p
    /\ role p = "owner".

(** With the permission of the target in place, the Drive listed the file
    again and accepted the update of the listed permission of the email to
    owner, which left the state [s']. *)
Definition promotion_accepted {S} {api : DriveApi S} (fid email : string)
    (notify : JsVal) (s s' : S) : Prop :=
  exists fd reqs s3 perms s4 p u,
    permission_in_place fid email s fd reqs s3
    /\ permissions_list fid s3 = (Ok perms, s4)
    /\ find (has_email email) perms = Some p
    /\ permissions_update fid (perm_id p) "owner" true notify s4 = (Ok u, s').

(** A file whose listing has two permissions for Bob, writer before owner. *)
Definition file5 : DriveFile :=
  mkDriveFile (mkFileDetails "F5" "plan.txt" "text/plain" (Some [mkUser "Bob" (Some bob)]))
    [mkPermission "anyoneWithLink" "reader" "anyone" None "";
     mkPermission "p1" "writer" "user" (Some bob) "Bob";
     mkPermission "p2" "owner" "user" (Some bob) "Bob"].

Definition world5 : World (gmap string DriveFile) := mkWorld {["F5" := file5]} [].

(** * Properties *)

(** ** Proof steps shared by the proofs below *)

Ltac unfold_service :=
  unfold transferFileOwnership, validateTransferPreconditions, promoteToOwner,
    addPermission, getFilePermissions, getFileDetails, when_, try_catch, bind, call,
    ret, throw, is_owner_permission, is_some; simpl.

Ltac unfold_mem :=
  unfold mem_files_get, mem_permissions_list, mem_permissions_create,
    mem_permissions_update, not_found; simpl.

(** ** The code on the sample Drive *)

Example isValidEmail_samples :
  map isValidEmail ["a@x.com"; "a@b.c.d"; "not-an-email"; "a@b"; "a b@x.com"; "a@@x.com";
                    "@x.com"; "a@.com"; "a@x."; ""]
  = [true; true; false; false; false; false; false; false; false; false].
Proof. reflexivity. Qed.

(** F1 is owned by Alice and Bob has no permission on it: one
    [permissions.create] with role writer, one [permissions.update] to
    owner, and Bob is the new owner. *)
Example transfer_F1_to_bob :
  transferFileOwnership "F1" bob ∅ world0
  = (Ok (mkOutcome true (Some "Ownership transferred successfully") None "F1"
           (Some "report.txt") (Some bob)),
     mkWorld
       (<["F1" := update_file "perm-b@x.com" "owner"
                    (add_permission_file (mkResource "writer" "user" bob) file1)]> drive0)
       [FilesGet "F1"; PermissionsList "F1";
        PermissionsCreate "F1" (mkResource "writer" "user" bob);
        PermissionsList "F1";
        PermissionsUpdate "F1" "perm-b@x.com" "owner" true (JBool false)]).
Proof. vm_compute. reflexivity. Qed.

Example validate_F1_bob :
  fst (validateTransferPreconditions "F1" bob world0) = Ok (Valid (Some alice) "report.txt").
Proof. reflexivity. Qed.

(** ** Lists and traces *)

Lemma emitted_app {S} (w w' : World S) evs :
  trace w' = trace w ++ evs -> emitted w w' = evs.
Proof.
  intros H. unfold emitted. rewrite H. by rewrite drop_app_length.
Qed.

Lemma filter_partition_length {A} (f : A -> bool) (l : list A) :
  length (List.filter f l) + length (List.filter (fun x => negb (f x)) l) = length l.
Proof.
  induction l as [|x l IH]; simpl; [done|].
  destruct (f x); simpl; lia.
Qed.

Section TransferFacts.
Context {S : Type} {sourceDrive : DriveApi S}.

Ltac run_calls :=
  repeat match goal with
    | |- context [files_get ?f ?s] =>
        let E := fresh "Eget" in destruct (files_get f s) as [[?|?] ?] eqn:E; simpl
    | |- context [permissions_list ?f ?s] =>
        let E := fresh "Elist" in destruct (permissions_list f s) as [[?|?] ?] eqn:E; simpl
    | |- context [permissions_create ?f ?r ?s] =>
        let E := fresh "Ecreate" in destruct (permissions_create f r s) as [[?|?] ?] eqn:E; simpl
    | |- context [permissions_update ?f ?i ?r ?t ?n ?s] =>
        let E := fresh "Eupd" in
        destruct (permissions_update f i r t n s) as [[?|?] ?] eqn:E; simpl
    | |- context [find ?f ?l] =>
        let E := fresh "Efind" in destruct (find f l) as [?|] eqn:E; simpl
    | |- context [bool_decide ?P] =>
        let E := fresh "Edec" in destruct (bool_decide P) eqn:E; simpl
    | |- context [truthy ?v] =>
        let E := fresh "Etruthy" in destruct (truthy v) eqn:E; simpl
    end.

(** Whatever the Drive answers, a transfer starts with [files.get] on the
    file, never waits, returns only outcomes with [success: true] for that
    file, and throws only errors prefixed with "Transfer failed: ". *)
Lemma transfer_inv fid email options (w : World S) :
  let r := fst (transferFileOwnership fid email options w) in
  let w' := snd (transferFileOwnership fid email options w) in
  (exists evs, trace w' = trace w ++ FilesGet fid :: evs
               /\ Forall (fun e => is_delay e = false) evs)
  /\ (forall o, r = Ok o -> success o = true /\ fileId o = fid)
  /\ (forall msg, r = Throw msg -> exists cause, msg = "Transfer failed: " +:+ cause).
Proof.
  unfold_service. run_calls.
  all: split; [|split].
  all: try (intros ? [= <-]; simpl; eauto; fail).
  all: try (intros ? [=]; fail).
  all: repeat rewrite <- app_assoc; simpl; eexists; split; [reflexivity|].
  all: repeat constructor.
Qed.

End TransferFacts.

(** ** The batch loop *)

Lemma count_delays_app evs1 evs2 :
  count_delays (evs1 ++ evs2) = count_delays evs1 + count_delays evs2.
Proof. unfold count_delays. by rewrite List.filter_app, length_app. Qed.

Lemma count_delays_none evs :
  Forall (fun e => is_delay e = false) evs -> count_delays evs = 0.
Proof.
  induction 1 as [|e evs He _ IH]; [done|].
  unfold count_delays in *. simpl. by rewrite He.
Qed.

Section BatchFacts.
Context {S : Type} {sourceDrive : DriveApi S}.
Variables (email : string) (options : gmap string JsVal).
Variables (d continueOnError : JsVal) (n : nat).

Lemma batchLoop_spec rest : forall i results (w : World S),
  i + length rest = n ->
  exists new evs,
    fst (batchLoop email options d continueOnError n i rest results w) = results ++ new
    /\ trace (snd (batchLoop email options d continueOnError n i rest results w))
       = trace w ++ evs
    /\ loop_post d continueOnError rest new evs.
Proof.
  induction rest as [|f rest IH]; intros i results w Hn; simpl.
  { exists [], []. rewrite !app_nil_r. repeat split; try done.
    intros _. left. by split. }
  pose proof (transfer_inv f email options w) as (Htr & Hok & _).
  destruct (transferFileOwnership f email options w) as [[o|msg] w1] eqn:E;
    simpl in Htr, Hok.
  - destruct (Hok o eq_refl) as [Hs Hf]. destruct Htr as (evs1 & Htr1 & Hnd).
    assert (Hcond : (Z.of_nat i <? Z.of_nat n - 1)%Z = negb (Nat.eqb (length rest) 0)).
    { simpl in Hn. destruct rest; simpl in *.
      - apply Z.ltb_ge. lia.
      - apply Z.ltb_lt. lia. }
    rewrite Hcond.
    match goal with
    | |- context [batchLoop _ _ _ _ _ _ _ _ ?w2] =>
        destruct (IH (Datatypes.S i) (results ++ [o]) w2) as (new & evs & Ho & Ht & Hp)
    end.
    { simpl in Hn. lia. }
    exists (o :: new).
    exists (FilesGet f :: evs1 ++ (if negb (Nat.eqb (length rest) 0) then [Delay d] else [])
              ++ evs).
    rewrite Ho, Ht. destruct Hp as [P1 P2 P3 P4 P5 P6].
    split; [by rewrite <- app_assoc|]. split.
    { destruct rest; simpl; rewrite Htr1; by repeat (rewrite <- app_assoc; simpl). }
    split; simpl.
    + by rewrite Hf, P1.
    + lia.
    + intros H. rewrite P3; done.
    + intros H. destruct (P4 H) as [[Ha Hl]|(oks & e & -> & Ha & He)].
      * left. split; [by constructor|]. simpl. by rewrite Hl.
      * right. exists (o :: oks), e. repeat split; [by constructor|done].
    + constructor; [done|]. apply Forall_app. split.
      { eapply Forall_impl; [exact Hnd|]. simpl. intros e He He'. congruence. }
      apply Forall_app. split; [|done].
      destruct (negb _); repeat constructor.
    + rewrite Nat.sub_0_r. change (FilesGet f :: evs1 ++ ?x) with ([FilesGet f] ++ evs1 ++ x).
      rewrite !count_delays_app, (count_delays_none evs1 Hnd), P6.
      destruct rest as [|g rest]; simpl.
      * destruct new; [done|simpl in P2; lia].
      * unfold count_success. simpl. rewrite Hs. simpl.
        by rewrite Nat.sub_0_r.
  - destruct Htr as (evs1 & Htr1 & Hnd).
    destruct (truthy continueOnError) eqn:Hcoe; simpl.
    + match goal with
      | |- context [batchLoop _ _ _ _ _ _ _ ?rs ?w2] =>
          destruct (IH (Datatypes.S i) rs w2) as (new & evs & Ho & Ht & Hp)
      end.
      { simpl in Hn. lia. }
      exists (mkOutcome false None (Some msg) f None None :: new).
      exists (FilesGet f :: evs1 ++ evs).
      rewrite Ho, Ht. destruct Hp as [P1 P2 P3 P4 P5 P6].
      split; [by rewrite <- app_assoc|]. split.
      { rewrite Htr1. by repeat (rewrite <- app_assoc; simpl). }
      split; simpl.
      * by rewrite P1.
      * lia.
      * intros _. by rewrite P3.
      * intros H. rewrite Hcoe in H. done.
      * constructor; [done|]. apply Forall_app. split; [|done].
        eapply Forall_impl; [exact Hnd|]. simpl. intros e He He'. congruence.
      * rewrite Nat.sub_0_r.
        change (FilesGet f :: evs1 ++ ?x) with ([FilesGet f] ++ evs1 ++ x).
        rewrite !count_delays_app, (count_delays_none evs1 Hnd), P6.
        destruct rest as [|g rest]; simpl.
        -- destruct new; [done|simpl in P2; lia].
        -- unfold count_success. simpl. by rewrite Nat.sub_0_r.
    + exists [mkOutcome false None (Some msg) f None None], (FilesGet f :: evs1).
      split; [done|]. split; [done|].
      split; simpl.
      * by rewrite take_0.
      * lia.
      * intros H. rewrite Hcoe in H. done.
      * intros _. right. exists [], (mkOutcome false None (Some msg) f None None).
        by repeat split.
      * constructor; [done|].
        eapply Forall_impl; [exact Hnd|]. simpl. intros e He He'. congruence.
      * change (FilesGet f :: evs1) with ([FilesGet f] ++ evs1).
        rewrite count_delays_app, (count_delays_none evs1 Hnd).
        rewrite Nat.sub_0_r. destruct rest as [|g [|h rest]]; reflexivity.
Qed.

End BatchFacts.

Section BatchTheorems.
Context {S : Type} {sourceDrive : DriveApi S}.

(** The batch never throws; its outcomes and the events it adds satisfy
    [loop_post] for the whole input, and the summary counts the outcomes. *)
Lemma batch_spec (fileIds : list string) email options (w : World S) :
  let d := destructure options "delayBetweenTransfers" (JNum 1000) in
  let continueOnError := destructure options "continueOnError" (JBool true) in
  exists rs evs w',
    batchTransferOwnership fileIds email options w
    = (Ok (mkBatchResult rs
             (mkSummary (length (List.filter (fun r => success r) rs))
                        (length (List.filter (fun r => negb (success r)) rs))
                        (length fileIds))), w')
    /\ trace w' = trace w ++ evs
    /\ loop_post d continueOnError fileIds rs evs.
Proof.
  intros d continueOnError. unfold batchTransferOwnership.
  destruct (batchLoop_spec email options d continueOnError (length fileIds)
              fileIds 0 [] w eq_refl) as (new & evs & Ho & Ht & Hp).
  fold d continueOnError.
  destruct (batchLoop email options d continueOnError (length fileIds) 0 fileIds [] w)
    as [rs w'] eqn:E.
  simpl in Ho, Ht. subst rs. by exists new, evs, w'.
Qed.

(** C1. With [continueOnError] true (given, or by default), the batch returns
    one outcome for every input file: the outcomes carry the input file ids,
    [successful + failed] is the number of input files, and so is [total]. *)
Theorem batch_continue_counts (fileIds : list string) email options (w : World S) :
  truthy (destructure options "continueOnError" (JBool true)) = true ->
  exists r w',
    batchTransferOwnership fileIds email options w = (Ok r, w')
    /\ length (results r) = length fileIds
    /\ map fileId (results r) = fileIds
    /\ successful (summary r) + failed (summary r) = length fileIds
    /\ total (summary r) = length fileIds.
Proof.
  intros Hcoe.
  destruct (batch_spec fileIds email options w) as (rs & evs & w' & -> & _ & Hp).
  destruct Hp as [P1 _ P3 _ _ _]. specialize (P3 Hcoe).
  eexists _, w'. split; [reflexivity|]. simpl.
  split; [done|]. split.
  { rewrite P1, P3. apply firstn_all. }
  split; [|done]. by rewrite filter_partition_length.
Qed.

(** C10. For the empty input the batch returns no outcome and the summary
    0, 0, 0, and leaves the world as it was: no request, no delay. *)
Theorem batch_empty email options (w : World S) :
  batchTransferOwnership [] email options w
  = (Ok (mkBatchResult [] (mkSummary 0 0 0)), w).
Proof. reflexivity. Qed.

End BatchTheorems.

(** ** A single transfer, on every Drive *)

Section TransferTheorems.
Context {S : Type} {sourceDrive : DriveApi S}.

(** When the listing's permission for the target has role owner, the
    transfer returns at once: two read requests and no other. *)
Lemma transfer_already_owner fid email options (w : World S) fd perms p s1 s2 :
  files_get fid (drive w) = (Ok fd, s1) ->
  permissions_list fid s1 = (Ok perms, s2) ->
  find (has_email email) perms = Some p ->
  role p = "owner" ->
  transferFileOwnership fid email options w
  = (Ok (mkOutcome true (Some "Already owner") None fid (Some (name fd)) None),
     mkWorld s2 (trace w ++ [FilesGet fid; PermissionsList fid])).
Proof.
  intros Hget Hlist Hfind Hrole. unfold_service.
  rewrite Hget. simpl. rewrite Hlist. simpl. rewrite Hfind.
  rewrite bool_decide_eq_true_2 by done. simpl.
  by rewrite <- app_assoc.
Qed.

(** The answer of the precondition check, by cases on what [files.get]
    returned. *)
Lemma validate_run fid email (w : World S) :
  validateTransferPreconditions fid email w
  = (Ok match fst (files_get fid (drive w)) with
        | Throw msg => Invalid ("Failed to get file details: " +:+ msg)
        | Ok fd =>
            match owners fd with
            | Some (o :: _) =>
                if isValidEmail email
                then Valid (owner_emailAddress o) (name fd)
                else Invalid "Invalid new owner email address"
            | _ => Invalid "Could not determine current file owner"
            end
        end,
     mkWorld (snd (files_get fid (drive w))) (trace w ++ [FilesGet fid])).
Proof.
  unfold_service. unfold first_owner.
  destruct (files_get fid (drive w)) as [[fd|msg] s1]; simpl; [|done].
  destruct (owners fd) as [[|o os]|]; simpl; try done.
  by destruct (isValidEmail email).
Qed.

(** C9. [validateTransferPreconditions] never throws and makes one request,
    [files.get], and no other. It answers valid exactly when the file was
    fetched, its [owners] has a first element and the target email passes
    [isValidEmail]; the answer then carries the email of that first owner and
    the file's name. Otherwise it answers [{valid: false, error}] with the
    message of the cause. *)
Theorem validate_preconditions_total fid email (w : World S) :
  exists p w',
    validateTransferPreconditions fid email w = (Ok p, w')
    /\ trace w' = trace w ++ [FilesGet fid]
    /\ Forall (fun e => is_write e = false) (emitted w w')
    /\ (valid p = true ->
        exists fd o os,
          fst (files_get fid (drive w)) = Ok fd
          /\ owners fd = Some (o :: os)
          /\ isValidEmail email = true
          /\ p = Valid (owner_emailAddress o) (name fd))
    /\ (forall fd o os,
          fst (files_get fid (drive w)) = Ok fd ->
          owners fd = Some (o :: os) ->
          if isValidEmail email
          then p = Valid (owner_emailAddress o) (name fd)
          else p = Invalid "Invalid new owner email address")
    /\ (forall fd,
          fst (files_get fid (drive w)) = Ok fd ->
          owners fd = None \/ owners fd = Some [] ->
          p = Invalid "Could not determine current file owner")
    /\ (forall msg,
          fst (files_get fid (drive w)) = Throw msg ->
          p = Invalid ("Failed to get file details: " +:+ msg)).
Proof.
  eexists _, _. split; [apply validate_run|]. simpl.
  split; [done|].
  split. { erewrite emitted_app by reflexivity. by repeat constructor. }
  destruct (files_get fid (drive w)) as [[fd|msg] s1]; simpl.
  - repeat split.
    + destruct (owners fd) as [[|o os]|] eqn:Eown; try done.
      destruct (isValidEmail email) eqn:Ev; [|done].
      intros _. by exists fd, o, os.
    + intros fd' o os [= <-] ->. by destruct (isValidEmail email).
    + by intros fd' [= <-] [-> | ->].
    + done.
  - repeat split; try done. by intros ? [= <-].
Qed.

End TransferTheorems.

(** ** Listings of permissions, and the Drive held in memory *)

(** Where a listing has one permission per email address, a permission of
    the target is the one the lookup yields. *)
Lemma find_unique_email email perms p :
  In p perms ->
  emailAddress p = Some email ->
  (forall q, In q perms -> emailAddress q = Some email -> q = p) ->
  find (has_email email) perms = Some p.
Proof.
  intros Hin He Huniq.
  destruct (find (has_email email) perms) as [q|] eqn:Efind.
  - apply find_some in Efind as [Hq Hqe].
    apply bool_decide_eq_true in Hqe. by rewrite (Huniq q Hq Hqe).
  - exfalso. apply (find_none _ _ Efind) in Hin.
    unfold has_email in Hin. by rewrite bool_decide_eq_true_2 in Hin.
Qed.

Lemma find_app_none {A} (p : A -> bool) (l1 l2 : list A) :
  find p l1 = None -> find p (l1 ++ l2) = find p l2.
Proof.
  induction l1 as [|x l1 IH]; simpl; [done|].
  destruct (p x); [done|exact IH].
Qed.

Lemma find_map_same {A} (p : A -> bool) (g : A -> A) (l : list A) :
  (forall x, p (g x) = p x) -> find p (map g l) = option_map g (find p l).
Proof.
  intros Hg. induction l as [|x l IH]; simpl; [done|].
  rewrite Hg. by destruct (p x).
Qed.

Lemma has_email_set_role email pid r perm :
  has_email email (set_role pid r perm) = has_email email perm.
Proof.
  unfold set_role, has_email.
  destruct (bool_decide (perm_id perm = pid)); simpl; [done|].
  by destruct (bool_decide (r = "owner") && bool_decide (role perm = "owner")).
Qed.

Lemma role_set_role_self r perm : role (set_role (perm_id perm) r perm) = r.
Proof. unfold set_role. by rewrite bool_decide_eq_true_2. Qed.

Lemma existsb_perm_id perm perms :
  In perm perms ->
  existsb (fun q => bool_decide (perm_id q = perm_id perm)) perms = true.
Proof.
  intros Hin. apply existsb_exists. exists perm. split; [done|].
  by apply bool_decide_eq_true_2.
Qed.

(** ** The option names the batch reads *)

Section OptionNames.
Context {S : Type} {sourceDrive : DriveApi S}.






End OptionNames.

(** ** Success and ownership *)

(** With [{transferOwnership: false}] the transfer of F1 to Bob returns
    [success: true] after adding a writer permission and promotes nobody:
    Bob does not hold the owner role afterwards. *)
Lemma success_without_owner_role :
  succeeded (fst (transferFileOwnership "F1" bob {["transferOwnership" := JBool false]} world0))
  = true
  /\ holds_owner
       (drive (snd (transferFileOwnership "F1" bob {["transferOwnership" := JBool false]} world0)))
       "F1" bob
     = false
  /\ emitted world0
       (snd (transferFileOwnership "F1" bob {["transferOwnership" := JBool false]} world0))
     = [FilesGet "F1"; PermissionsList "F1";
        PermissionsCreate "F1" (mkResource "writer" "user" bob)].
Proof. vm_compute. by repeat split. Qed.

(** ** Runs on the sample Drive *)

(** An email that fails [isValidEmail] does not stop the transfer: the
    requests to the Drive are made with it. *)
Lemma invalid_email_reaches_drive :
  isValidEmail "not-an-email" = false
  /\ emitted world0 (snd (transferFileOwnership "F1" "not-an-email" ∅ world0))
     = [FilesGet "F1"; PermissionsList "F1";
        PermissionsCreate "F1" (mkResource "writer" "user" "not-an-email");
        PermissionsList "F1";
        PermissionsUpdate "F1" "perm-not-an-email" "owner" true (JBool false)]
  /\ succeeded (fst (transferFileOwnership "F1" "not-an-email" ∅ world0)) = true.
Proof. vm_compute. by repeat split. Qed.


(** C6. The batch of F1, F2, F3 where F2 is unknown to the Drive, with
    [continueOnError: true]: the three files are processed, the second
    fails, and the batch waits once, after F1; it makes the requests for F3
    right after the failure of F2, without a wait. *)
Theorem no_delay_after_failed_transfer :
  let run := batchTransferOwnership ["F1"; "F2"; "F3"] bob
               {["continueOnError" := JBool true]} world0 in
  map success (batch_results run) = [true; false; true]
  /\ count_delays (emitted world0 (snd run)) = 1
  /\ map is_delay (emitted world0 (snd run))
     = [false; false; false; false; false; true; false; false; false; false; false]
  /\ drop 5 (emitted world0 (snd run))
     = [Delay (JNum 1000); FilesGet "F2"; FilesGet "F3"; PermissionsList "F3";
        PermissionsList "F3";
        PermissionsUpdate "F3" "perm-b@x.com" "owner" true (JBool false)].
Proof. vm_compute. by repeat split. Qed.

Lemma batch_continue_counts_witness :
  truthy (destructure ∅ "continueOnError" (JBool true)) = true
  /\ exists r w',
       batchTransferOwnership ["F1"; "F2"; "F3"] bob ∅ world0 = (Ok r, w')
       /\ length (results r) = 3
       /\ map fileId (results r) = ["F1"; "F2"; "F3"]
       /\ successful (summary r) + failed (summary r) = 3
       /\ total (summary r) = 3.
Proof.
  split; [reflexivity|].
  apply (batch_continue_counts ["F1"; "F2"; "F3"] bob ∅ world0). reflexivity.
Defined.

(** * Properties of the code around the claims *)

(** ** Strings *)

#[local] Arguments String.append : simpl nomatch.

Lemma append_nil_r (s : string) : s +:+ "" = s.
Proof. induction s as [|c s IH]; simpl; [done|]. by rewrite IH. Qed.

Lemma append_assoc (s1 s2 s3 : string) : (s1 +:+ s2) +:+ s3 = s1 +:+ (s2 +:+ s3).
Proof. induction s1 as [|c s1 IH]; simpl; [done|]. by rewrite IH. Qed.

Lemma length_append (s1 s2 : string) :
  String.length (s1 +:+ s2) = String.length s1 + String.length s2.
Proof. induction s1 as [|c s1 IH]; simpl; [done|]. by rewrite IH. Qed.

Lemma append_eq_nil (s1 s2 : string) : s1 +:+ s2 = "" -> s1 = "" /\ s2 = "".
Proof. destruct s1; simpl; [done|discriminate]. Qed.

Lemma string_forall_append p s1 s2 :
  string_forall p (s1 +:+ s2) = string_forall p s1 && string_forall p s2.
Proof.
  induction s1 as [|c s1 IH]; simpl; [done|]. by rewrite IH, andb_assoc.
Qed.

Lemma string_exists_append p s1 s2 :
  string_exists p (s1 +:+ s2) = string_exists p s1 || string_exists p s2.
Proof.
  induction s1 as [|c s1 IH]; simpl; [done|]. by rewrite IH, orb_assoc.
Qed.

Lemma string_forall_impl (p q : ascii -> bool) s :
  (forall c, p c = true -> q c = true) ->
  string_forall p s = true -> string_forall q s = true.
Proof.
  intros Hpq. induction s as [|c s IH]; simpl; [done|].
  intros [Hc Hs]%andb_true_iff. by rewrite (Hpq c Hc), IH.
Qed.

Lemma string_forall_not_exists p s :
  string_forall (fun c => negb (p c)) s = true -> string_exists p s = false.
Proof.
  induction s as [|c s IH]; simpl; [done|].
  intros [Hc Hs]%andb_true_iff. apply negb_true_iff in Hc. by rewrite Hc, IH.
Qed.

(** ** What a regular expression matches *)

Inductive lang : regex -> string -> Prop :=
  | lang_eps : lang Eps ""
  | lang_class p c : p c = true -> lang (Class p) (String c "")
  | lang_seq r1 r2 s1 s2 : lang r1 s1 -> lang r2 s2 -> lang (Seq r1 r2) (s1 +:+ s2)
  | lang_alt_l r1 r2 s : lang r1 s -> lang (Alt r1 r2) s
  | lang_alt_r r1 r2 s : lang r2 s -> lang (Alt r1 r2) s
  | lang_star_nil r : lang (Star r) ""
  | lang_star_app r s1 s2 : lang r s1 -> lang (Star r) s2 -> lang (Star r) (s1 +:+ s2).

Lemma lang_void s : ~ lang Void s.
Proof. inversion 1. Qed.

Lemma lang_eps_inv s : lang Eps s -> s = "".
Proof. by inversion 1. Qed.

Lemma lang_class_inv p s : lang (Class p) s -> exists c, s = String c "" /\ p c = true.
Proof. inversion 1; subst. by eexists. Qed.

Lemma lang_seq_inv r1 r2 s :
  lang (Seq r1 r2) s -> exists s1 s2, s = s1 +:+ s2 /\ lang r1 s1 /\ lang r2 s2.
Proof. inversion 1; subst. by eexists _, _. Qed.

Lemma lang_alt_inv r1 r2 s : lang (Alt r1 r2) s -> lang r1 s \/ lang r2 s.
Proof. inversion 1; subst; auto. Qed.

Lemma nullable_lang r : nullable r = true <-> lang r "".
Proof.
  induction r as [| |p|r1 IH1 r2 IH2|r1 IH1 r2 IH2|r IH]; simpl.
  - split; [done|]. intros H. by apply lang_void in H.
  - split; [constructor|done].
  - split; [done|]. intros (c & ? & _)%lang_class_inv. discriminate.
  - rewrite andb_true_iff, IH1, IH2. split.
    + intros [H1 H2]. by apply (lang_seq r1 r2 "" "").
    + intros (s1 & s2 & Hs & H1 & H2)%lang_seq_inv.
      symmetry in Hs. apply append_eq_nil in Hs as [-> ->]. done.
  - rewrite orb_true_iff, IH1, IH2. split.
    + intros [H|H]; [by apply lang_alt_l|by apply lang_alt_r].
    + apply lang_alt_inv.
  - split; [constructor|done].
Qed.

(** A non-empty member of [Star r] starts with a non-empty member of [r]. *)
Lemma lang_star_cons_inv r c s :
  lang (Star r) (String c s) ->
  exists s1 s2, s = s1 +:+ s2 /\ lang r (String c s1) /\ lang (Star r) s2.
Proof.
  intros H. remember (Star r) as r' eqn:Hr. remember (String c s) as t eqn:Ht.
  revert s Ht.
  induction H as [| | | | | |r0 s1 s2 H1 _ H2 IH2]; intros t Ht; try discriminate.
  injection Hr as ->. destruct s1 as [|c1 s1]; simpl in Ht.
  - by apply IH2.
  - injection Ht as -> <-. by exists s1, s2.
Qed.

Lemma deriv_lang r : forall c s, lang (deriv c r) s <-> lang r (String c s).
Proof.
  induction r as [| |p|r1 IH1 r2 IH2|r1 IH1 r2 IH2|r IH]; intros c s; simpl.
  - split; intros H; by apply lang_void in H.
  - split; intros H; [by apply lang_void in H|]. by apply lang_eps_inv in H.
  - destruct (p c) eqn:Hp.
    + split.
      * intros H. apply lang_eps_inv in H. subst s. by constructor.
      * intros (c' & Hc' & _)%lang_class_inv. injection Hc' as <- ->. constructor.
    + split; [intros H; by apply lang_void in H|].
      intros (c' & Hc' & Hc)%lang_class_inv. injection Hc' as <- ->. congruence.
  - assert (Hcons : forall s1 s2, lang r1 (String c s1) -> lang r2 s2 ->
                      lang (Seq r1 r2) (String c (s1 +:+ s2))).
    { intros s1 s2 H1 H2. by apply (lang_seq r1 r2 (String c s1) s2). }
    assert (Hinv : lang (Seq r1 r2) (String c s) ->
              (exists s1 s2, s = s1 +:+ s2 /\ lang r1 (String c s1) /\ lang r2 s2)
              \/ (lang r1 "" /\ lang r2 (String c s))).
    { intros (s1 & s2 & Hs & H1 & H2)%lang_seq_inv.
      destruct s1 as [|c1 s1]; simpl in Hs.
      - right. by subst.
      - injection Hs as -> ->. left. by exists s1, s2. }
    destruct (nullable r1) eqn:Hn.
    + split.
      * intros [H|H]%lang_alt_inv.
        -- apply lang_seq_inv in H as (s1 & s2 & -> & H1 & H2).
           apply Hcons; [by apply IH1|done].
        -- apply (lang_seq r1 r2 "" (String c s)); [by apply nullable_lang|by apply IH2].
      * intros [(s1 & s2 & -> & H1 & H2)|[_ H2]]%Hinv.
        -- apply lang_alt_l, lang_seq; [by apply IH1|done].
        -- apply lang_alt_r. by apply IH2.
    + split.
      * intros (s1 & s2 & -> & H1 & H2)%lang_seq_inv.
        apply Hcons; [by apply IH1|done].
      * intros [(s1 & s2 & -> & H1 & H2)|[H1 _]]%Hinv.
        -- apply lang_seq; [by apply IH1|done].
        -- apply nullable_lang in H1. congruence.
  - split.
    + intros [H|H]%lang_alt_inv; [apply lang_alt_l; by apply IH1|apply lang_alt_r; by apply IH2].
    + intros [H|H]%lang_alt_inv; [apply lang_alt_l; by apply IH1|apply lang_alt_r; by apply IH2].
  - split.
    + intros (s1 & s2 & -> & H1 & H2)%lang_seq_inv.
      apply (lang_star_app r (String c s1) s2); [by apply IH|done].
    + intros (s1 & s2 & -> & H1 & H2)%lang_star_cons_inv.
      apply lang_seq; [by apply IH|done].
Qed.

(** The matcher decides membership. *)
Lemma matches_lang s : forall r, matches r s = true <-> lang r s.
Proof.
  induction s as [|c s IH]; intros r; simpl.
  - apply nullable_lang.
  - rewrite IH. apply deriv_lang.
Qed.

(** *** Classes under repetition *)

Lemma lang_star_class p s : lang (Star (Class p)) s <-> string_forall p s = true.
Proof.
  split.
  - intros H. remember (Star (Class p)) as r eqn:Hr.
    induction H as [| | | | | |r0 s1 s2 H1 _ H2 IH2]; try discriminate; [done|].
    injection Hr as ->. apply lang_class_inv in H1 as (c & -> & Hc).
    simpl. by rewrite Hc, IH2.
  - induction s as [|c s IH]; simpl; [constructor|].
    intros [Hc Hs]%andb_true_iff.
    apply (lang_star_app (Class p) (String c "") s); [by constructor|by apply IH].
Qed.

Lemma lang_plus_class p s :
  lang (Plus (Class p)) s <-> s <> "" /\ string_forall p s = true.
Proof.
  unfold Plus. split.
  - intros (s1 & s2 & -> & H1 & H2)%lang_seq_inv.
    apply lang_class_inv in H1 as (c & -> & Hc). apply lang_star_class in H2.
    simpl. by rewrite Hc, H2.
  - intros [Hne Hs]. destruct s as [|c s]; [done|]. simpl in Hs.
    apply andb_true_iff in Hs as [Hc Hs].
    apply (lang_seq (Class p) _ (String c "") s); [by constructor|by apply lang_star_class].
Qed.

Lemma lang_times_class n p : forall s,
  lang (Times n (Class p)) s <-> String.length s = n /\ string_forall p s = true.
Proof.
  induction n as [|n IH]; intros s; simpl.
  - split.
    + by intros ->%lang_eps_inv.
    + intros [Hl _]. destruct s; [constructor|discriminate].
  - split.
    + intros (s1 & s2 & -> & H1 & H2)%lang_seq_inv.
      apply lang_class_inv in H1 as (c & -> & Hc). apply IH in H2 as [Hl Hs].
      simpl. by rewrite Hl, Hc, Hs.
    + intros [Hl Hs]. destruct s as [|c s]; [discriminate|]. simpl in Hl, Hs.
      apply andb_true_iff in Hs as [Hc Hs].
      apply (lang_seq (Class p) _ (String c "") s); [by constructor|].
      apply IH. split; [lia|done].
Qed.

Lemma lang_upto_class n p : forall s,
  lang (UpTo n (Class p)) s <-> String.length s <= n /\ string_forall p s = true.
Proof.
  induction n as [|n IH]; intros s; simpl.
  - split.
    + by intros ->%lang_eps_inv.
    + intros [Hl _]. destruct s; [constructor|simpl in Hl; lia].
  - unfold Opt. split.
    + intros [->%lang_eps_inv|(s1 & s2 & -> & H1 & H2)%lang_seq_inv]%lang_alt_inv.
      { simpl. split; [lia|done]. }
      apply lang_class_inv in H1 as (c & -> & Hc). apply IH in H2 as [Hl Hs].
      simpl. rewrite Hc, Hs. split; [lia|done].
    + intros [Hl Hs]. destruct s as [|c s]; [apply lang_alt_l; constructor|].
      simpl in Hl, Hs. apply andb_true_iff in Hs as [Hc Hs].
      apply lang_alt_r.
      apply (lang_seq (Class p) _ (String c "") s); [by constructor|].
      apply IH. split; [lia|done].
Qed.

Lemma string_split_at n : forall s,
  n <= String.length s ->
  exists s1 s2, s = s1 +:+ s2 /\ String.length s1 = n.
Proof.
  induction n as [|n IH]; intros s Hl.
  - by exists "", s.
  - destruct s as [|c s]; simpl in Hl; [lia|].
    destruct (IH s) as (s1 & s2 & -> & Hl1); [lia|].
    exists (String c s1), s2. simpl. by rewrite Hl1.
Qed.

Lemma lang_range_class lo hi p s :
  lo <= hi ->
  lang (Range lo hi (Class p)) s
  <-> (lo <= String.length s <= hi /\ string_forall p s = true).
Proof.
  intros Hlh. unfold Range. split.
  - intros (s1 & s2 & -> & H1 & H2)%lang_seq_inv.
    apply lang_times_class in H1 as [Hl1 Hs1]. apply lang_upto_class in H2 as [Hl2 Hs2].
    rewrite length_append, string_forall_append, Hs1, Hs2. split; [lia|done].
  - intros [Hl Hs].
    destruct (string_split_at lo s) as (s1 & s2 & -> & Hl1); [lia|].
    rewrite length_append in Hl. rewrite string_forall_append in Hs.
    apply andb_true_iff in Hs as [Hs1 Hs2].
    apply lang_seq; [by apply lang_times_class|].
    apply lang_upto_class. split; [lia|done].
Qed.

(** ** The two email checks and the file id check *)

(** The strings the pattern of [isValidEmail] matches. *)
Lemma isValidEmail_parts (email : string) :
  isValidEmail email = true
  <-> exists a b c,
        email = a +:+ "@" +:+ b +:+ "." +:+ c
        /\ a <> "" /\ b <> "" /\ c <> ""
        /\ string_forall not_space_at a = true
        /\ string_forall not_space_at b = true
        /\ string_forall not_space_at c = true.
Proof.
  unfold isValidEmail, emailRegex. rewrite matches_lang. split.
  - intros (a & s1 & -> & Ha & H1)%lang_seq_inv.
    apply lang_seq_inv in H1 as (at_ & s2 & -> & Hat & H2).
    apply lang_seq_inv in H2 as (b & s3 & -> & Hb & H3).
    apply lang_seq_inv in H3 as (dot & c & -> & Hdot & Hc).
    apply lang_plus_class in Ha as [Ha1 Ha2], Hb as [Hb1 Hb2], Hc as [Hc1 Hc2].
    apply lang_class_inv in Hat as (x & -> & Hx), Hdot as (y & -> & Hy).
    assert (x = "@"%char) as ->.
    { unfold is_at in Hx. apply Nat.eqb_eq in Hx.
      rewrite <- (ascii_nat_embedding x), Hx. reflexivity. }
    assert (y = "."%char) as ->.
    { unfold is_dot in Hy. apply Nat.eqb_eq in Hy.
      rewrite <- (ascii_nat_embedding y), Hy. reflexivity. }
    by exists a, b, c.
  - intros (a & b & c & -> & Ha & Hb & Hc & Has & Hbs & Hcs).
    apply lang_seq; [by apply lang_plus_class|].
    apply (lang_seq _ _ "@"); [by constructor|].
    apply lang_seq; [by apply lang_plus_class|].
    apply (lang_seq _ _ "."); [by constructor|].
    by apply lang_plus_class.
Qed.

(** X1. [isValidEmail] of the transfer service accepts exactly the strings
    [a@b.c] where [a], [b] and [c] are non-empty and hold neither white space
    nor [@]. *)
Theorem isValidEmail_shape (email : string) :
  isValidEmail email = true
  <-> exists a b c,
        email = a +:+ "@" +:+ b +:+ "." +:+ c
        /\ a <> "" /\ b <> "" /\ c <> ""
        /\ string_forall not_space_at a = true
        /\ string_forall not_space_at b = true
        /\ string_forall not_space_at c = true.
Proof. apply isValidEmail_parts. Qed.

(** The strings the pattern of [isValidFileId] matches. *)
Lemma isValidFileId_parts (fileId : JsVal) :
  ValidationUtils.isValidFileId fileId = true
  <-> exists s,
        fileId = JStr s
        /\ 28 <= String.length s <= 44
        /\ string_forall ValidationUtils.is_id_char s = true.
Proof.
  unfold ValidationUtils.isValidFileId, ValidationUtils.fileIdRegex. split.
  - destruct fileId as [| | | |s]; try done.
    destruct (negb (truthy (JStr s))); [done|].
    rewrite matches_lang, lang_range_class by lia. intros [Hl Hs]. by exists s.
  - intros (s & -> & Hl & Hs).
    assert (Hne : negb (truthy (JStr s)) = false).
    { destruct s; simpl in *; [lia|done]. }
    rewrite Hne. rewrite matches_lang, lang_range_class by lia. done.
Qed.

(** X2. [ValidationUtils.isValidFileId] accepts exactly the strings of 28 to
    44 characters, each a letter, a digit, [_] or [-]. *)
Theorem isValidFileId_shape (fileId : JsVal) :
  ValidationUtils.isValidFileId fileId = true
  <-> exists s,
        fileId = JStr s
        /\ 28 <= String.length s <= 44
        /\ string_forall ValidationUtils.is_id_char s = true.
Proof. apply isValidFileId_parts. Qed.

(** ** Validation of the parameters of a transfer *)

Lemma filter_nil_forall {A} (f : A -> bool) (l : list A) :
  List.filter (fun x => negb (f x)) l = [] <-> Forall (fun x => f x = true) l.
Proof.
  induction l as [|x l IH]; simpl.
  - split; [constructor|done].
  - destruct (f x) eqn:Hx; simpl.
    + rewrite IH. split; [by constructor|by inversion 1].
    + split; [done|]. inversion 1; congruence.
Qed.

(** X3. [validateFileIds] answers valid exactly for a non-empty array whose
    ids all pass [isValidFileId]. For the empty array the error asks for at
    least one id; otherwise the error lists the ids that do not pass, in the
    order of the input, separated by ", ". A valid answer has no error. *)
Theorem validateFileIds_valid_iff (fileIds : list string) :
  let v := ValidationUtils.validateFileIds fileIds in
  let invalidIds :=
    List.filter (fun id => negb (ValidationUtils.isValidFileId (JStr id))) fileIds in
  (ValidationUtils.ids_valid v = true
   <-> fileIds <> []
       /\ Forall (fun id => ValidationUtils.isValidFileId (JStr id) = true) fileIds)
  /\ (ValidationUtils.ids_valid v = true -> ValidationUtils.ids_error v = None)
  /\ (fileIds = [] ->
      ValidationUtils.ids_error v = Some "At least one file ID must be provided")
  /\ (fileIds <> [] -> invalidIds <> [] ->
      ValidationUtils.ids_error v
      = Some ("Invalid file IDs found: " +:+ String.concat ", " invalidIds)).
Proof.
  intros v invalidIds. subst v. unfold ValidationUtils.validateFileIds.
  destruct fileIds as [|id ids].
  { simpl. repeat split; try done. intros [H _]. done. }
  assert (Hnil : invalidIds = []
                 <-> Forall (fun id => ValidationUtils.isValidFileId (JStr id) = true)
                       (id :: ids)).
  { apply (filter_nil_forall (fun id => ValidationUtils.isValidFileId (JStr id))). }
  change (List.filter (fun id => negb (ValidationUtils.isValidFileId (JStr id))) (id :: ids))
    with invalidIds.
  clearbody invalidIds. simpl length. simpl Nat.eqb. cbv iota.
  destruct invalidIds as [|bad rest]; simpl.
  - repeat split; try done. by apply Hnil.
  - repeat split; try done.
    intros [_ Hall]. apply (proj2 Hnil) in Hall. discriminate.
Qed.

Lemma validateFileIds_error_some (fileIds : list string) :
  ValidationUtils.ids_valid (ValidationUtils.validateFileIds fileIds) = false ->
  exists e, ValidationUtils.ids_error (ValidationUtils.validateFileIds fileIds) = Some e.
Proof.
  unfold ValidationUtils.validateFileIds.
  destruct (length fileIds =? 0)%nat; simpl; [by eexists|].
  destruct (0 <? length _)%nat; simpl; [by eexists|done].
Qed.

(** X4. [validateTransferParams] answers valid exactly when both emails pass
    [ValidationUtils.isValidEmail], they are not the same value, and the file
    ids pass [validateFileIds]; it is valid exactly when it reports no error,
    and it reports at most four. *)
Theorem validateTransferParams_valid_iff (sourceEmail targetEmail : JsVal)
    (fileIds : list string) :
  let v := ValidationUtils.validateTransferParams sourceEmail targetEmail fileIds in
  (ValidationUtils.params_valid v = true
   <-> ValidationUtils.isValidEmail sourceEmail = true
       /\ ValidationUtils.isValidEmail targetEmail = true
       /\ strict_eq sourceEmail targetEmail = false
       /\ ValidationUtils.ids_valid (ValidationUtils.validateFileIds fileIds) = true)
  /\ (ValidationUtils.params_valid v = true <-> ValidationUtils.errors v = [])
  /\ length (ValidationUtils.errors v) <= 4.
Proof.
  intros v. subst v. unfold ValidationUtils.validateTransferParams.
  pose proof (validateFileIds_error_some fileIds) as Herr.
  destruct (ValidationUtils.isValidEmail sourceEmail),
         (ValidationUtils.isValidEmail targetEmail),
         (strict_eq sourceEmail targetEmail),
         (ValidationUtils.ids_valid (ValidationUtils.validateFileIds fileIds)) eqn:Hids;
    simpl.
  all: try (destruct (Herr eq_refl) as [e ->]); simpl.
  all: repeat split; try done; try lia; try (intros (? & ? & ? & ?); done).
Qed.

(** ** Sanitized input *)

Lemma length_trimStart s : String.length (trimStart s) <= String.length s.
Proof.
  induction s as [|c s IH]; simpl; [done|].
  destruct (is_space c); simpl; lia.
Qed.

Lemma length_trimEnd s : String.length (trimEnd s) <= String.length s.
Proof.
  induction s as [|c s IH]; simpl; [done|].
  destruct (trimEnd s); simpl in *; [destruct (is_space c); simpl; lia|lia].
Qed.

Lemma length_remove_chars p s : String.length (remove_chars p s) <= String.length s.
Proof.
  induction s as [|c s IH]; simpl; [done|].
  destruct (p c); simpl; lia.
Qed.

Lemma remove_chars_clean p s :
  string_forall (fun c => negb (p c)) (remove_chars p s) = true.
Proof.
  induction s as [|c s IH]; simpl; [done|].
  destruct (p c) eqn:Hc; simpl; [done|]. by rewrite Hc, IH.
Qed.

Lemma length_substring_0 n : forall s,
  String.length (substring 0 n s) <= n /\ String.length (substring 0 n s) <= String.length s.
Proof.
  induction n as [|n IH]; intros [|c s]; simpl; try lia.
  destruct (IH s). lia.
Qed.

Lemma string_forall_substring_0 p n : forall s,
  string_forall p s = true -> string_forall p (substring 0 n s) = true.
Proof.
  induction n as [|n IH]; intros [|c s]; simpl; try done.
  intros [Hc Hs]%andb_true_iff. by rewrite Hc, IH.
Qed.

Lemma substring_0_all n : forall s, String.length s <= n -> substring 0 n s = s.
Proof.
  induction n as [|n IH]; intros [|c s]; simpl; try done; [lia|].
  intros Hl. rewrite IH; [done|lia].
Qed.

Lemma trimStart_no_space s :
  string_forall (fun c => negb (is_space c)) s = true -> trimStart s = s.
Proof.
  destruct s as [|c s]; simpl; [done|].
  intros [Hc _]%andb_true_iff. apply negb_true_iff in Hc. by rewrite Hc.
Qed.

Lemma trimEnd_no_space s :
  string_forall (fun c => negb (is_space c)) s = true -> trimEnd s = s.
Proof.
  induction s as [|c s IH]; simpl; [done|].
  intros [Hc Hs]%andb_true_iff. apply negb_true_iff in Hc.
  rewrite IH by done. rewrite Hc. by destruct s.
Qed.

Lemma remove_chars_none p s :
  string_forall (fun c => negb (p c)) s = true -> remove_chars p s = s.
Proof.
  induction s as [|c s IH]; simpl; [done|].
  intros [Hc Hs]%andb_true_iff. apply negb_true_iff in Hc. by rewrite Hc, IH.
Qed.

(** A string left as it is: no white space, none of the four removed
    characters, at most 500 characters. *)
Lemma sanitizeInput_unchanged s :
  string_forall (fun c => negb (is_space c)) s = true ->
  string_forall (fun c => negb (ValidationUtils.is_dangerous c)) s = true ->
  String.length s <= 500 ->
  ValidationUtils.sanitizeInput (JStr s) = JStr s.
Proof.
  intros Hsp Hd Hl. unfold ValidationUtils.sanitizeInput, trim.
  rewrite trimStart_no_space, trimEnd_no_space by done.
  rewrite remove_chars_none by done. by rewrite substring_0_all.
Qed.

(** X5. [sanitizeInput] returns a value that is not a string as it is. Of a
    string it returns a string of at most 500 characters, not longer than
    the input, that holds none of the characters less-than, greater-than,
    double quote and apostrophe. *)
Theorem sanitizeInput_clean (input : JsVal) :
  match input with
  | JStr s =>
      exists t,
        ValidationUtils.sanitizeInput input = JStr t
        /\ String.length t <= 500
        /\ String.length t <= String.length s
        /\ string_forall (fun c => negb (ValidationUtils.is_dangerous c)) t = true
  | _ => ValidationUtils.sanitizeInput input = input
  end.
Proof.
  destruct input as [| | | |s]; try done.
  eexists. split; [reflexivity|].
  pose proof (length_substring_0 500
                (remove_chars ValidationUtils.is_dangerous (trim s))) as [H1 H2].
  pose proof (length_remove_chars ValidationUtils.is_dangerous (trim s)) as H3.
  pose proof (length_trimEnd (trimStart s)) as H4.
  pose proof (length_trimStart s) as H5.
  unfold trim in *. repeat split; [lia|lia|].
  apply string_forall_substring_0, remove_chars_clean.
Qed.

Lemma id_char_plain c :
  ValidationUtils.is_id_char c = true ->
  negb (is_space c) = true /\ negb (ValidationUtils.is_dangerous c) = true.
Proof.
  destruct c as [[] [] [] [] [] [] [] []]; vm_compute; intros H; by try discriminate H.
Qed.

(** X6. [sanitizeInput] leaves every file id that passes [isValidFileId] as
    it is: what [getUserInput] hands on for a valid id is the id typed. *)
Theorem sanitizeInput_keeps_file_ids (s : string) :
  ValidationUtils.isValidFileId (JStr s) = true ->
  ValidationUtils.sanitizeInput (JStr s) = JStr s.
Proof.
  intros (s' & [= <-] & Hl & Hs)%isValidFileId_parts.
  apply sanitizeInput_unchanged; [| |lia].
  - eapply string_forall_impl; [|exact Hs]. intros c Hc. by apply id_char_plain.
  - eapply string_forall_impl; [|exact Hs]. intros c Hc. by apply id_char_plain.
Qed.

Lemma sanitizeInput_keeps_file_ids_witness :
  ValidationUtils.isValidFileId (JStr "1BxiMVs0XRA5nFMdKvBdBZjgmUUqptlbs74OgvE2upms") = true
  /\ ValidationUtils.sanitizeInput (JStr "1BxiMVs0XRA5nFMdKvBdBZjgmUUqptlbs74OgvE2upms")
     = JStr "1BxiMVs0XRA5nFMdKvBdBZjgmUUqptlbs74OgvE2upms".
Proof.
  split; [reflexivity|].
  apply (sanitizeInput_keeps_file_ids "1BxiMVs0XRA5nFMdKvBdBZjgmUUqptlbs74OgvE2upms").
  reflexivity.
Defined.

(** ** The email check of [ValidationUtils] against the one of the service *)

Lemma local_char_plain c :
  ValidationUtils.is_local_char c = true ->
  not_space_at c = true
  /\ negb (is_space c) = true
  /\ ValidationUtils.is_dangerous c = Ascii.eqb "'" c.
Proof.
  destruct c as [[] [] [] [] [] [] [] []]; vm_compute; intros H; by try discriminate H.
Qed.

Lemma label_char_plain c :
  ValidationUtils.is_label_char c = true ->
  not_space_at c = true
  /\ negb (is_space c) = true
  /\ ValidationUtils.is_dangerous c = false
  /\ is_dot c = false
  /\ Ascii.eqb "'" c = false.
Proof.
  destruct c as [[] [] [] [] [] [] [] []]; vm_compute; intros H; by try discriminate H.
Qed.

Lemma alnum_label_char c : is_alnum c = true -> ValidationUtils.is_label_char c = true.
Proof. unfold ValidationUtils.is_label_char. by intros ->. Qed.

Lemma is_at_char c : is_at c = true -> c = "@"%char.
Proof.
  unfold is_at. intros H%Nat.eqb_eq. by rewrite <- (ascii_nat_embedding c), H.
Qed.

Lemma is_dot_char c : is_dot c = true -> c = "."%char.
Proof.
  unfold is_dot. intros H%Nat.eqb_eq. by rewrite <- (ascii_nat_embedding c), H.
Qed.

(** A label is not empty and made of letters, digits and hyphens. *)
Lemma lang_label l :
  lang ValidationUtils.label l ->
  l <> "" /\ string_forall ValidationUtils.is_label_char l = true.
Proof.
  unfold ValidationUtils.label.
  intros (s1 & s2 & -> & H1 & H2)%lang_seq_inv.
  apply lang_class_inv in H1 as (c & -> & Hc). split; [done|].
  simpl. rewrite (alnum_label_char c Hc). simpl.
  apply lang_alt_inv in H2 as [->%lang_eps_inv|H2]; [done|].
  apply lang_seq_inv in H2 as (s3 & s4 & -> & H3 & H4).
  apply lang_range_class in H3 as [_ H3]; [|lia].
  apply lang_class_inv in H4 as (c' & -> & Hc').
  rewrite string_forall_append, H3. simpl. by rewrite (alnum_label_char c' Hc').
Qed.

(** The labels after the first one: nothing, or a dot and a non-empty rest
    of letters, digits, hyphens and dots. *)
Lemma lang_more_labels t :
  lang (Star (Seq (Class is_dot) ValidationUtils.label)) t ->
  string_forall (fun c => ValidationUtils.is_label_char c || is_dot c) t = true
  /\ (t = "" \/ exists rest, t = "." +:+ rest /\ rest <> "").
Proof.
  intros H. remember (Star (Seq (Class is_dot) ValidationUtils.label)) as r eqn:Hr.
  induction H as [| | | | | |r0 s1 s2 H1 _ H2 IH2]; try discriminate.
  { split; [done|by left]. }
  injection Hr as ->. destruct (IH2 eq_refl) as [Hall _].
  apply lang_seq_inv in H1 as (d & l & -> & Hd & Hl).
  apply lang_class_inv in Hd as (c & -> & Hc).
  apply lang_label in Hl as [Hne Hl].
  assert (Hl' : string_forall (fun c => ValidationUtils.is_label_char c || is_dot c) l = true).
  { eapply string_forall_impl; [|exact Hl]. simpl. by intros c' ->. }
  split.
  - change (String c "" +:+ l) with (String c l).
    change (String c l +:+ s2) with (String c (l +:+ s2)).
    cbn [string_forall]. rewrite Hc, orb_true_r.
    by rewrite string_forall_append, Hl', Hall.
  - right. exists (l +:+ s2). rewrite (is_dot_char c Hc). split; [done|].
    destruct l; [done|discriminate].
Qed.

Lemma after_at_append a s :
  string_forall not_space_at a = true -> after_at (a +:+ "@" +:+ s) = s.
Proof.
  induction a as [|c a IH]; simpl; [done|].
  intros [Hc Ha]%andb_true_iff.
  unfold not_space_at in Hc. apply negb_true_iff, orb_false_iff in Hc as [_ Hc].
  rewrite Hc. by apply IH.
Qed.

(** What [ValidationUtils.isValidEmail] accepts: a local part, [@], a first
    label and the further labels. *)
Lemma strict_email_parts s :
  ValidationUtils.isValidEmail (JStr s) = true ->
  String.length s <= 254
  /\ exists a l t,
       s = a +:+ "@" +:+ l +:+ t
       /\ a <> "" /\ string_forall ValidationUtils.is_local_char a = true
       /\ l <> "" /\ string_forall ValidationUtils.is_label_char l = true
       /\ string_forall (fun c => ValidationUtils.is_label_char c || is_dot c) t = true
       /\ (t = "" \/ exists rest, t = "." +:+ rest /\ rest <> "").
Proof.
  unfold ValidationUtils.isValidEmail.
  destruct (negb (truthy (JStr s))); [done|].
  intros [Hm Hl]%andb_true_iff. apply Nat.leb_le in Hl. split; [done|].
  apply matches_lang in Hm. unfold ValidationUtils.emailRegex in Hm.
  apply lang_seq_inv in Hm as (a & s1 & -> & Ha & H1).
  apply lang_seq_inv in H1 as (x & s2 & -> & Hx & H2).
  apply lang_seq_inv in H2 as (l & t & -> & Hlab & Ht).
  apply lang_plus_class in Ha as [Ha1 Ha2].
  apply lang_class_inv in Hx as (c & -> & Hc). pose proof (is_at_char c Hc) as ->.
  apply lang_label in Hlab as [Hl1 Hl2]. apply lang_more_labels in Ht as [Ht1 Ht2].
  by exists a, l, t.
Qed.

(** X7. For a string that [ValidationUtils.isValidEmail] accepts, the check
    of the transfer service, [isValidEmail], accepts it exactly when its
    domain, the part after the [@], holds a dot: an address such as
    [user@localhost] passes [validateTransferParams] and is then refused by
    [validateTransferPreconditions]. *)
Theorem strict_email_needs_dot (s : string) :
  ValidationUtils.isValidEmail (JStr s) = true ->
  isValidEmail s = string_exists is_dot (after_at s).
Proof.
  intros [_ (a & l & t & -> & Ha1 & Ha2 & Hl1 & Hl2 & Ht1 & Ht2)]%strict_email_parts.
  assert (Ha : string_forall not_space_at a = true).
  { eapply string_forall_impl; [|exact Ha2]. intros c Hc. by apply local_char_plain. }
  assert (Hl : string_forall not_space_at l = true).
  { eapply string_forall_impl; [|exact Hl2]. intros c Hc. by apply label_char_plain. }
  assert (Hldot : string_exists is_dot l = false).
  { apply string_forall_not_exists. eapply string_forall_impl; [|exact Hl2].
    intros c Hc. apply negb_true_iff. by apply label_char_plain. }
  rewrite after_at_append by done. rewrite string_exists_append, Hldot. simpl.
  destruct Ht2 as [->|(rest & -> & Hrest)].
  - simpl. apply not_true_is_false. intros Hv.
    apply isValidEmail_parts in Hv as (a' & b & c & Heq & _ & _ & _ & Ha' & _ & _).
    assert (Hafter : after_at (a +:+ "@" +:+ l +:+ "") = b +:+ "." +:+ c).
    { rewrite <- (after_at_append a' (b +:+ "." +:+ c) Ha'). f_equal. exact Heq. }
    rewrite after_at_append, append_nil_r in Hafter by done.
    rewrite Hafter, string_exists_append in Hldot. simpl in Hldot.
    by rewrite orb_true_r in Hldot.
  - simpl. apply isValidEmail_parts. exists a, l, rest.
    repeat split; try done.
    simpl in Ht1. eapply string_forall_impl; [|exact Ht1].
    intros c [Hc|Hc]%orb_true_iff; [by apply label_char_plain|].
    by rewrite (is_dot_char c Hc).
Qed.

Lemma strict_email_needs_dot_witness :
  ValidationUtils.isValidEmail (JStr "user@localhost") = true
  /\ isValidEmail "user@localhost" = string_exists is_dot (after_at "user@localhost").
Proof.
  split; [reflexivity|].
  apply (strict_email_needs_dot "user@localhost"). reflexivity.
Defined.

Lemma remove_chars_ext (p q : ascii -> bool) s :
  string_forall (fun c => Bool.eqb (p c) (q c)) s = true ->
  remove_chars p s = remove_chars q s.
Proof.
  induction s as [|c s IH]; simpl; [done|].
  intros [Hc Hs]%andb_true_iff. apply eqb_prop in Hc. by rewrite Hc, IH.
Qed.

Lemma remove_chars_same_iff p s :
  remove_chars p s = s <-> string_exists p s = false.
Proof.
  induction s as [|c s IH]; simpl; [done|].
  destruct (p c) eqn:Hc; simpl.
  - split; [|done]. intros H.
    pose proof (length_remove_chars p s) as Hl. rewrite H in Hl. simpl in Hl. lia.
  - rewrite <- IH. split; [by intros [= ->]|by intros ->].
Qed.

(** X8. Of an address that [ValidationUtils.isValidEmail] accepts,
    [sanitizeInput] removes the apostrophes and nothing else: the address
    comes back as it is exactly when it holds no apostrophe. *)
Theorem sanitizeInput_strips_apostrophes (s : string) :
  ValidationUtils.isValidEmail (JStr s) = true ->
  ValidationUtils.sanitizeInput (JStr s) = JStr (remove_chars (Ascii.eqb "'") s)
  /\ (ValidationUtils.sanitizeInput (JStr s) = JStr s
      <-> string_exists (Ascii.eqb "'") s = false).
Proof.
  intros [Hlen (a & l & t & -> & Ha1 & Ha2 & Hl1 & Hl2 & Ht1 & Ht2)]%strict_email_parts.
  set (s := a +:+ "@" +:+ l +:+ t) in *.
  set (q := fun c => negb (is_space c)
                     && Bool.eqb (ValidationUtils.is_dangerous c) (Ascii.eqb "'" c)).
  assert (Hq : string_forall q s = true).
  { assert (Hqa : string_forall q a = true).
    { eapply string_forall_impl; [|exact Ha2].
      intros c Hc. destruct (local_char_plain c Hc) as (_ & H1 & H2).
      unfold q. rewrite H1, H2. cbn [andb]. apply eqb_reflx. }
    assert (Hql : string_forall q l = true).
    { eapply string_forall_impl; [|exact Hl2].
      intros c Hc. destruct (label_char_plain c Hc) as (_ & H1 & H2 & _ & H3).
      unfold q. by rewrite H1, H2, H3. }
    assert (Hqt : string_forall q t = true).
    { eapply string_forall_impl; [|exact Ht1].
      intros c [Hc|Hc]%orb_true_iff.
      - destruct (label_char_plain c Hc) as (_ & H1 & H2 & _ & H3).
        unfold q. by rewrite H1, H2, H3.
      - by rewrite (is_dot_char c Hc). }
    unfold s. rewrite string_forall_append, Hqa.
    change ("@" +:+ l +:+ t) with (String "@" (l +:+ t)).
    cbn [string_forall andb]. by rewrite string_forall_append, Hql, Hqt. }
  assert (Hsp : string_forall (fun c => negb (is_space c)) s = true).
  { eapply string_forall_impl; [|exact Hq]. by intros c [H _]%andb_true_iff. }
  assert (Hext : remove_chars ValidationUtils.is_dangerous s
                 = remove_chars (Ascii.eqb "'") s).
  { apply remove_chars_ext. eapply string_forall_impl; [|exact Hq].
    by intros c [_ H]%andb_true_iff. }
  assert (Hsan : ValidationUtils.sanitizeInput (JStr s)
                 = JStr (remove_chars (Ascii.eqb "'") s)).
  { unfold ValidationUtils.sanitizeInput, trim.
    rewrite trimStart_no_space, trimEnd_no_space by done. rewrite Hext.
    rewrite substring_0_all; [done|].
    pose proof (length_remove_chars (Ascii.eqb "'") s). lia. }
  split; [done|]. rewrite Hsan, <- remove_chars_same_iff.
  split; [by intros [= ->]|by intros ->].
Qed.

Lemma sanitizeInput_strips_apostrophes_witness :
  ValidationUtils.isValidEmail (JStr "o'brien@x.com") = true
  /\ ValidationUtils.sanitizeInput (JStr "o'brien@x.com")
     = JStr (remove_chars (Ascii.eqb "'") "o'brien@x.com")
  /\ (ValidationUtils.sanitizeInput (JStr "o'brien@x.com") = JStr "o'brien@x.com"
      <-> string_exists (Ascii.eqb "'") "o'brien@x.com" = false).
Proof.
  split; [reflexivity|].
  apply (sanitizeInput_strips_apostrophes "o'brien@x.com"). reflexivity.
Defined.

(** ** The listing of the users with tokens *)

Lemma replace_first_unfold pattern replacement s :
  replace_first pattern replacement s
  = if String.prefix pattern s
    then replacement +:+ substring (String.length pattern)
                           (String.length s - String.length pattern) s
    else match s with
         | EmptyString => EmptyString
         | String c s' => String c (replace_first pattern replacement s')
         end.
Proof. by destruct s. Qed.

(** [.json] does not overlap itself: where it starts inside [e] in
    [e.json], it lies within [e]. *)
Lemma prefix_json_append e :
  e <> "" -> String.prefix ".json" (e +:+ ".json") = true -> String.prefix ".json" e = true.
Proof.
  intros Hne Hp. apply String.prefix_correct in Hp. apply String.prefix_correct.
  assert (H00 : forall s, substring 0 0 s = "") by (by intros []).
  destruct e as [|c1 [|c2 [|c3 [|c4 [|c5 e]]]]]; [done|..]; simpl in *;
    rewrite ?H00 in *; first [discriminate Hp | exact Hp].
Qed.

Lemma replace_first_json e :
  includes ".json" e = false -> replace_first ".json" "" (e +:+ ".json") = e.
Proof.
  induction e as [|c e IH]; [done|].
  change (includes ".json" (String c e))
    with (String.prefix ".json" (String c e) || includes ".json" e).
  intros [Hp Hi]%orb_false_iff.
  rewrite replace_first_unfold.
  destruct (String.prefix ".json" (String c e +:+ ".json")) eqn:Hpre.
  - apply prefix_json_append in Hpre; [congruence|done].
  - simpl. by rewrite IH.
Qed.

Lemma substring_skip e : forall n t,
  substring (String.length e) n (e +:+ t) = substring 0 n t.
Proof. induction e as [|c e IH]; intros n t; simpl; [done|apply IH]. Qed.

Lemma endsWith_append e suffix : endsWith (e +:+ suffix) suffix = true.
Proof.
  unfold endsWith. rewrite length_append.
  replace (String.length e + String.length suffix - String.length suffix)
    with (String.length e) by lia.
  rewrite substring_skip, substring_0_all by done.
  rewrite String.eqb_refl, andb_true_r. apply Nat.leb_le. lia.
Qed.

(** X9. When the tokens directory holds the file [<email>.json] and the
    email does not itself hold [.json], [listAuthenticatedUsers] lists the
    email. (The extension is removed at its first occurrence, so an email
    that holds [.json] is listed under another name.) A missing directory
    gives the empty list, and any other error is thrown on as it is. *)
Theorem listAuthenticatedUsers_round_trip (files : list string) (email : string) :
  In (email +:+ ".json") files ->
  includes ".json" email = false ->
  exists users,
    TokenManager.listAuthenticatedUsers (inr files) = inr users
    /\ In email users
    /\ length users <= length files
    /\ (forall error,
          TokenManager.listAuthenticatedUsers (inl error)
          = if String.eqb (code error) "ENOENT" then inr [] else inl error).
Proof.
  intros Hin Hinc. eexists. split; [reflexivity|]. split; [|split; [|done]].
  - apply in_map_iff. exists (email +:+ ".json"). split.
    + by apply replace_first_json.
    + apply filter_In. split; [done|apply endsWith_append].
  - rewrite length_map. apply List.filter_length_le.
Qed.

Lemma listAuthenticatedUsers_round_trip_witness :
  In ("a@x.com" +:+ ".json") ["notes.txt"; "a@x.com.json"]
  /\ includes ".json" "a@x.com" = false
  /\ exists users,
       TokenManager.listAuthenticatedUsers (inr ["notes.txt"; "a@x.com.json"]) = inr users
       /\ In "a@x.com" users
       /\ length users <= length ["notes.txt"; "a@x.com.json"]
       /\ (forall error,
             TokenManager.listAuthenticatedUsers (inl error)
             = if String.eqb (code error) "ENOENT" then inr [] else inl error).
Proof.
  split; [right; by left|]. split; [reflexivity|].
  apply (listAuthenticatedUsers_round_trip ["notes.txt"; "a@x.com.json"] "a@x.com").
  - right. by left.
  - reflexivity.
Defined.

(** An email that holds [.json] is listed under another name. *)
Example listAuthenticatedUsers_json_in_email :
  TokenManager.listAuthenticatedUsers (inr ["x.json@y.com.json"]) = inr ["x@y.com.json"].
Proof. reflexivity. Qed.

(** ** The file ids read from the user *)

Lemma validateFileIds_ok (fileIds : list string) :
  fileIds <> [] ->
  Forall (fun id => ValidationUtils.isValidFileId (JStr id) = true) fileIds ->
  ValidationUtils.validateFileIds fileIds = ValidationUtils.mkFileIdsValidation true None.
Proof.
  intros Hne Hall. unfold ValidationUtils.validateFileIds.
  destruct fileIds as [|id ids]; [done|].
  change (length (id :: ids) =? 0)%nat with false. cbv iota.
  apply (proj2 (filter_nil_forall
                  (fun id => ValidationUtils.isValidFileId (JStr id)) (id :: ids))) in Hall.
  cbv beta in Hall. rewrite Hall. reflexivity.
Qed.

Lemma getMultipleFileIds_from_spec (answers : list string) :
  forall acc ids,
    getMultipleFileIds_from answers acc = Some ids ->
    exists new,
      ids = acc ++ new
      /\ Forall (fun id => ValidationUtils.isValidFileId (JStr id) = true) new
      /\ Forall (fun id => exists answer, In answer answers /\ id = trim answer) new
      /\ exists answer, In answer answers /\ trim answer = "".
Proof.
  induction answers as [|a answers IH]; intros acc ids;
    cbn [getMultipleFileIds_from]; [done|].
  destruct (String.eqb_spec (trim a) "") as [He|Hne].
  - intros [= <-]. exists []. rewrite app_nil_r. repeat split; try done.
    exists a. split; [by left|done].
  - destruct (ValidationUtils.isValidFileId (JStr (trim a))) eqn:Hv; intros Hrun.
    + destruct (IH _ _ Hrun) as (new & -> & Hall & Hfrom & (e & Hin & He)).
      exists (trim a :: new). rewrite <- app_assoc. repeat split; try done.
      * by constructor.
      * constructor; [exists a; split; [by left|done]|].
        eapply Forall_impl; [exact Hfrom|]. simpl.
        intros id (b & Hb & ->). exists b. split; [by right|done].
      * exists e. split; [by right|done].
    + destruct (IH _ _ Hrun) as (new & -> & Hall & Hfrom & (e & Hin & He)).
      exists new. repeat split; try done.
      * eapply Forall_impl; [exact Hfrom|]. simpl.
        intros id (b & Hb & ->). exists b. split; [by right|done].
      * exists e. split; [by right|done].
Qed.

(** X10. When the input loop [getMultipleFileIds] ends, every id it returns
    is a trimmed answer of the user that passes [isValidFileId], and the
    loop has met an answer that is empty once trimmed; so a non-empty result
    always passes [validateFileIds]. *)
Theorem getMultipleFileIds_valid (answers ids : list string) :
  getMultipleFileIds answers = Some ids ->
  Forall (fun id => ValidationUtils.isValidFileId (JStr id) = true) ids
  /\ Forall (fun id => exists answer, In answer answers /\ id = trim answer) ids
  /\ (exists answer, In answer answers /\ trim answer = "")
  /\ (ids <> [] ->
      ValidationUtils.validateFileIds ids = ValidationUtils.mkFileIdsValidation true None).
Proof.
  intros Hrun. unfold getMultipleFileIds in Hrun.
  destruct (getMultipleFileIds_from_spec _ _ _ Hrun) as (new & -> & Hall & Hfrom & Hend).
  simpl. repeat split; try done. intros Hne. by apply validateFileIds_ok.
Qed.

Lemma getMultipleFileIds_valid_witness :
  getMultipleFileIds [" 1BxiMVs0XRA5nFMdKvBdBZjgmUUq "; "bad id"; "  "; "unread"]
  = Some ["1BxiMVs0XRA5nFMdKvBdBZjgmUUq"]
  /\ Forall (fun id => ValidationUtils.isValidFileId (JStr id) = true)
       ["1BxiMVs0XRA5nFMdKvBdBZjgmUUq"]
  /\ Forall (fun id => exists answer,
               In answer [" 1BxiMVs0XRA5nFMdKvBdBZjgmUUq "; "bad id"; "  "; "unread"]
               /\ id = trim answer)
       ["1BxiMVs0XRA5nFMdKvBdBZjgmUUq"]
  /\ (exists answer,
        In answer [" 1BxiMVs0XRA5nFMdKvBdBZjgmUUq "; "bad id"; "  "; "unread"]
        /\ trim answer = "")
  /\ (["1BxiMVs0XRA5nFMdKvBdBZjgmUUq"] <> [] ->
      ValidationUtils.validateFileIds ["1BxiMVs0XRA5nFMdKvBdBZjgmUUq"]
      = ValidationUtils.mkFileIdsValidation true None).
Proof.
  split; [reflexivity|].
  apply (getMultipleFileIds_valid
           [" 1BxiMVs0XRA5nFMdKvBdBZjgmUUq "; "bad id"; "  "; "unread"]).
  reflexivity.
Defined.

(** ** The requests and the errors of a transfer *)

(** One case per answer of the Drive. *)
Ltac run_requests :=
  repeat match goal with
    | |- context [files_get ?f ?s] =>
        let E := fresh "Eget" in destruct (files_get f s) as [[?|?] ?] eqn:E; simpl
    | |- context [permissions_list ?f ?s] =>
        let E := fresh "Elist" in destruct (permissions_list f s) as [[?|?] ?] eqn:E; simpl
    | |- context [permissions_create ?f ?r ?s] =>
        let E := fresh "Ecreate" in destruct (permissions_create f r s) as [[?|?] ?] eqn:E; simpl
    | |- context [permissions_update ?f ?i ?r ?t ?n ?s] =>
        let E := fresh "Eupd" in
        destruct (permissions_update f i r t n s) as [[?|?] ?] eqn:E; simpl
    | |- context [find ?f ?l] =>
        let E := fresh "Efind" in destruct (find f l) as [?|] eqn:E; simpl
    | |- context [bool_decide ?P] =>
        let E := fresh "Edec" in destruct (bool_decide P) eqn:E; simpl
    | |- context [truthy ?v] =>
        let E := fresh "Etruthy" in destruct (truthy v) eqn:E; simpl
    end.

Section RequestFacts.
Context {S : Type} {sourceDrive : DriveApi S}.

Ltac norm_emitted :=
  unfold emitted; simpl; repeat rewrite <- app_assoc; rewrite ?drop_app_length; simpl.

(** X11. [promoteToOwner] first lists the permissions. It sends the update
    only for the id of the first listed permission of the email, always
    with role owner and the transfer flag; when the listing fails or has
    no permission for the email it throws without an update, and every
    error it throws starts with "Failed to promote to owner: ". *)
Theorem promoteToOwner_requests fid email notify (w : World S) :
  let r := fst (promoteToOwner fid email notify w) in
  let evs := emitted w (snd (promoteToOwner fid email notify w)) in
  (forall msg, r = Throw msg -> exists cause, msg = "Failed to promote to owner: " +:+ cause)
  /\ (forall msg,
        fst (permissions_list fid (drive w)) = Throw msg ->
        r = Throw ("Failed to promote to owner: Failed to get permissions: " +:+ msg)
        /\ evs = [PermissionsList fid])
  /\ (forall perms,
        fst (permissions_list fid (drive w)) = Ok perms ->
        find (has_email email) perms = None ->
        r = Throw ("Failed to promote to owner: User " +:+ email
                   +:+ " does not have permission to this file")
        /\ evs = [PermissionsList fid])
  /\ (forall perms p,
        fst (permissions_list fid (drive w)) = Ok perms ->
        find (has_email email) perms = Some p ->
        evs = [PermissionsList fid;
               PermissionsUpdate fid (perm_id p) "owner" true
                 (default_param notify (JBool false))]).
Proof.
  unfold promoteToOwner, getFilePermissions, try_catch, bind, call, throw. simpl.
  destruct (permissions_list fid (drive w)) as [[perms|msg] s1] eqn:Elist; simpl.
  - destruct (find (has_email email) perms) as [p|] eqn:Efind; simpl.
    + destruct (permissions_update _ _ _ _ _ _) as [[u|m] s2]; simpl.
      all: split; [|split; [|split]].
      all: try (intros ? H; discriminate H).
      all: try (intros ? [= <-]; by eexists).
      all: try (intros perms' [= <-] Hf; congruence).
      all: intros perms' p' [= <-] Hf; rewrite Efind in Hf; injection Hf as <-.
      all: by norm_emitted.
    + split; [|split; [|split]].
      * intros ? [= <-]. by eexists.
      * intros ? H. discriminate H.
      * intros perms' [= <-] _. split; [done|by norm_emitted].
      * intros perms' p' [= <-] Hf. congruence.
  - split; [|split; [|split]].
    + intros ? [= <-]. by eexists.
    + intros ? [= <-]. split; [done|by norm_emitted].
    + intros ? H. discriminate H.
    + intros ? ? H. discriminate H.
Qed.

(** X12. A transfer makes at most two write requests: at most one
    [permissions.create], for the target with role writer and type user, and
    after it at most one [permissions.update], to role owner with the
    transfer flag and the caller's [sendNotificationEmail] (false by
    default). Without the option [transferOwnership] it makes no update. *)
Theorem transfer_writes fid email options (w : World S) :
  let writes :=
    List.filter is_write (emitted w (snd (transferFileOwnership fid email options w))) in
  let notify := default_param (destructure options "sendNotificationEmail" (JBool false))
                  (JBool false) in
  let create := PermissionsCreate fid (mkResource "writer" "user" email) in
  (writes = []
   \/ writes = [create]
   \/ (exists pid, writes = [PermissionsUpdate fid pid "owner" true notify])
   \/ (exists pid, writes = [create; PermissionsUpdate fid pid "owner" true notify]))
  /\ (truthy (destructure options "transferOwnership" (JBool true)) = false ->
      writes = [] \/ writes = [create]).
Proof.
  unfold_service. run_requests.
  all: norm_emitted.
  all: split;
    [ first [ by left | by (right; left) | by (right; right; left; eexists)
            | by (right; right; right; eexists) ]
    | first [ done | intros _; by left | intros _; by right ] ].
Qed.

(** X14. Where the listing already has a permission for the target, of
    whatever role, the transfer creates no permission. *)
Theorem transfer_no_create fid email options (w : World S) fd perms p s1 s2 :
  files_get fid (drive w) = (Ok fd, s1) ->
  permissions_list fid s1 = (Ok perms, s2) ->
  find (has_email email) perms = Some p ->
  Forall (fun e => match e with PermissionsCreate _ _ => False | _ => True end)
    (emitted w (snd (transferFileOwnership fid email options w))).
Proof.
  intros Hget Hlist Hfind. unfold_service.
  rewrite Hget. simpl. rewrite Hlist. simpl. rewrite Hfind. simpl.
  run_requests. all: norm_emitted. all: by repeat constructor.
Qed.

(** X13. The error of a failed transfer names the step that failed:
    "Transfer failed: " and then "Failed to get file details: " with the
    message of [files.get], after that one request; or
    "Failed to get permissions: " after the two read requests; or
    "Failed to add permission: " after the create request; or
    "Failed to promote to owner: ", after the second listing. *)
Theorem transfer_error_stage fid email options (w : World S) msg :
  fst (transferFileOwnership fid email options w) = Throw msg ->
  let evs := emitted w (snd (transferFileOwnership fid email options w)) in
  let create := PermissionsCreate fid (mkResource "writer" "user" email) in
  (exists cause,
     msg = "Transfer failed: Failed to get file details: " +:+ cause
     /\ fst (files_get fid (drive w)) = Throw cause
     /\ evs = [FilesGet fid])
  \/ (exists cause,
        msg = "Transfer failed: Failed to get permissions: " +:+ cause
        /\ evs = [FilesGet fid; PermissionsList fid])
  \/ (exists cause,
        msg = "Transfer failed: Failed to add permission: " +:+ cause
        /\ evs = [FilesGet fid; PermissionsList fid; create])
  \/ (exists cause rest,
        msg = "Transfer failed: Failed to promote to owner: " +:+ cause
        /\ (evs = FilesGet fid :: PermissionsList fid :: PermissionsList fid :: rest
            \/ evs = FilesGet fid :: PermissionsList fid :: create
                       :: PermissionsList fid :: rest)).
Proof.
  unfold_service. run_requests.
  all: intros Hmsg; try discriminate Hmsg; injection Hmsg as <-.
  all: norm_emitted.
  all: first
    [ by (left; eexists)
    | by (right; left; eexists)
    | by (right; right; left; eexists)
    | right; right; right; eexists _, _; split; [reflexivity|];
      first [ by left | by right ] ].
Qed.

End RequestFacts.

Lemma transfer_error_stage_witness :
  fst (transferFileOwnership "F2" bob ∅ world0)
  = Throw "Transfer failed: Failed to get file details: File not found: F2."
  /\ ((exists cause,
         "Transfer failed: Failed to get file details: File not found: F2."
         = "Transfer failed: Failed to get file details: " +:+ cause
         /\ fst (files_get "F2" (drive world0)) = Throw cause
         /\ emitted world0 (snd (transferFileOwnership "F2" bob ∅ world0)) = [FilesGet "F2"])
      \/ (exists cause,
            "Transfer failed: Failed to get file details: File not found: F2."
            = "Transfer failed: Failed to get permissions: " +:+ cause
            /\ emitted world0 (snd (transferFileOwnership "F2" bob ∅ world0))
               = [FilesGet "F2"; PermissionsList "F2"])
      \/ (exists cause,
            "Transfer failed: Failed to get file details: File not found: F2."
            = "Transfer failed: Failed to add permission: " +:+ cause
            /\ emitted world0 (snd (transferFileOwnership "F2" bob ∅ world0))
               = [FilesGet "F2"; PermissionsList "F2";
                  PermissionsCreate "F2" (mkResource "writer" "user" bob)])
      \/ (exists cause rest,
            "Transfer failed: Failed to get file details: File not found: F2."
            = "Transfer failed: Failed to promote to owner: " +:+ cause
            /\ (emitted world0 (snd (transferFileOwnership "F2" bob ∅ world0))
                = FilesGet "F2" :: PermissionsList "F2" :: PermissionsList "F2" :: rest
                \/ emitted world0 (snd (transferFileOwnership "F2" bob ∅ world0))
                   = FilesGet "F2" :: PermissionsList "F2"
                       :: PermissionsCreate "F2" (mkResource "writer" "user" bob)
                       :: PermissionsList "F2" :: rest))).
Proof.
  split; [reflexivity|].
  apply (transfer_error_stage "F2" bob ∅ world0). reflexivity.
Defined.

Lemma transfer_no_create_witness :
  files_get "F3" (drive world0) = (Ok (details file3), drive0)
  /\ permissions_list "F3" drive0 = (Ok (permissions file3), drive0)
  /\ find (has_email bob) (permissions file3)
     = Some (mkPermission "perm-b@x.com" "reader" "user" (Some bob) "Bob")
  /\ Forall (fun e => match e with PermissionsCreate _ _ => False | _ => True end)
       (emitted world0 (snd (transferFileOwnership "F3" bob ∅ world0))).
Proof.
  split; [reflexivity|]. split; [reflexivity|]. split; [reflexivity|].
  apply (transfer_no_create "F3" bob ∅ world0 (details file3) (permissions file3)
           (mkPermission "perm-b@x.com" "reader" "user" (Some bob) "Bob") drive0 drive0);
    reflexivity.
Defined.

(** ** More on the batch *)

Section BatchMore.
Context {S : Type} {sourceDrive : DriveApi S}.

Lemma count_success_le (os : list Outcome) : count_success os <= length os.
Proof. unfold count_success. apply List.filter_length_le. Qed.

Lemma count_success_all (os : list Outcome) :
  Forall (fun o => success o = true) os -> count_success os = length os.
Proof.
  unfold count_success. induction 1 as [|o os Ho _ IH]; simpl; [done|].
  rewrite Ho. simpl. by rewrite IH.
Qed.

(** X15. A batch of n files waits at most n - 1 times, and exactly n - 1
    times when every file was processed with success; a batch of one file
    never waits. *)
Theorem batch_delay_bound (fileIds : list string) email options (w : World S) :
  let run := batchTransferOwnership fileIds email options w in
  count_delays (emitted w (snd run)) <= length fileIds - 1
  /\ (Forall (fun o => success o = true) (batch_results run) ->
      length (batch_results run) = length fileIds ->
      count_delays (emitted w (snd run)) = length fileIds - 1)
  /\ (length fileIds <= 1 -> count_delays (emitted w (snd run)) = 0).
Proof.
  intros run. subst run.
  destruct (batch_spec fileIds email options w) as (rs & evs & w' & -> & Ht & Hp).
  unfold batch_results. simpl. rewrite (emitted_app _ _ _ Ht).
  destruct Hp as [_ P2 _ _ _ P6]. rewrite P6.
  pose proof (count_success_le (take (length fileIds - 1) rs)) as Hle.
  rewrite length_take in Hle.
  split; [lia|]. split; [|lia].
  intros Hall Hlen. rewrite count_success_all.
  - rewrite length_take. lia.
  - by apply Forall_take.
Qed.

(** What a transfer returns: one of its two successes, for the file asked
    and with the name [files.get] gave. *)
Lemma transfer_outcome_shape fid email options (w : World S) o :
  fst (transferFileOwnership fid email options w) = Ok o ->
  exists fd,
    fst (files_get fid (drive w)) = Ok fd
    /\ (o = mkOutcome true (Some "Already owner") None fid (Some (name fd)) None
        \/ o = mkOutcome true (Some "Ownership transferred successfully") None fid
                 (Some (name fd)) (Some email)).
Proof.
  unfold_service. run_requests.
  all: intros Ho; try discriminate Ho; injection Ho as <-.
  all: eexists; split; [reflexivity|]; first [by left | by right].
Qed.

Lemma batchLoop_forall (P : Outcome -> Prop) email options d coe n rest :
  (forall f (w : World S) o,
     In f rest -> fst (transferFileOwnership f email options w) = Ok o -> P o) ->
  (forall f (w : World S) msg,
     In f rest -> fst (transferFileOwnership f email options w) = Throw msg ->
     P (mkOutcome false None (Some msg) f None None)) ->
  forall i rs (w : World S),
    Forall P rs -> Forall P (fst (batchLoop email options d coe n i rest rs w)).
Proof.
  induction rest as [|f rest IH]; intros Hok Hthrow i rs w Hrs; simpl; [done|].
  destruct (transferFileOwnership f email options w) as [[o|msg] w1] eqn:E.
  - apply IH.
    + intros f' w' o' Hin. apply Hok. by right.
    + intros f' w' m' Hin. apply Hthrow. by right.
    + apply Forall_app. split; [done|]. constructor; [|done].
      apply (Hok f w); [by left|by rewrite E].
  - assert (Hnew : Forall P (rs ++ [mkOutcome false None (Some msg) f None None])).
    { apply Forall_app. split; [done|]. constructor; [|done].
      apply (Hthrow f w); [by left|by rewrite E]. }
    destruct (negb (truthy coe)); [done|].
    apply IH; [| |done].
    + intros f' w' o' Hin. apply Hok. by right.
    + intros f' w' m' Hin. apply Hthrow. by right.
Qed.

(** X16. Every outcome of a batch is for a file of the input and is either
    a success, with no error and one of the two messages of a transfer
    ("Already owner" without a new owner, or "Ownership transferred
    successfully" with the target as new owner), or a failure with no
    message, no file name, no new owner and an error that starts with
    "Transfer failed: ". *)
Theorem batch_outcome_shapes (fileIds : list string) email options (w : World S) :
  Forall (fun o =>
            In (fileId o) fileIds
            /\ ((success o = true /\ error o = None
                 /\ ((message o = Some "Already owner" /\ newOwner o = None)
                     \/ (message o = Some "Ownership transferred successfully"
                         /\ newOwner o = Some email)))
                \/ (success o = false /\ message o = None /\ fileName o = None
                    /\ newOwner o = None
                    /\ exists cause, error o = Some ("Transfer failed: " +:+ cause))))
    (batch_results (batchTransferOwnership fileIds email options w)).
Proof.
  unfold batch_results, batchTransferOwnership.
  match goal with
  | |- context [batchLoop ?e ?o ?d ?c ?n ?i ?rest ?rs ?w0] =>
      pose proof (batchLoop_forall
        (fun o =>
            In (fileId o) fileIds
            /\ ((success o = true /\ error o = None
                 /\ ((message o = Some "Already owner" /\ newOwner o = None)
                     \/ (message o = Some "Ownership transferred successfully"
                         /\ newOwner o = Some email)))
                \/ (success o = false /\ message o = None /\ fileName o = None
                    /\ newOwner o = None
                    /\ exists cause, error o = Some ("Transfer failed: " +:+ cause))))
        e o d c n rest) as Hloop;
      destruct (batchLoop e o d c n i rest rs w0) as [results w'] eqn:Eloop
  end.
  simpl. change results with (fst (results, w')). rewrite <- Eloop.
  apply Hloop; [| |done].
  - intros f w0 o Hin Ho.
    apply transfer_outcome_shape in Ho as (fd & _ & [-> | ->]); simpl.
    + split; [done|]. left. repeat split; try done. by left.
    + split; [done|]. left. repeat split; try done. by right.
  - intros f w0 msg Hin Hmsg. simpl. split; [done|]. right.
    repeat split; try done.
    destruct (transfer_inv f email options w0) as (_ & _ & Hthrow).
    destruct (Hthrow msg Hmsg) as [cause ->]. by exists cause.
Qed.

End BatchMore.

(** * Ownership after a transfer *)

(** ** The Drive held in memory keeps to the contract *)

Lemma MemDrive_contract : DriveContract MemDrive.
Proof.
  split; simpl.
  - intros f s r s'. unfold mem_files_get, not_found.
    destruct (s !! f); by intros [= _ <-].
  - intros f s r s'. unfold mem_permissions_list, not_found.
    destruct (s !! f); by intros [= _ <-].
  - intros f res s m s'. unfold mem_permissions_create, not_found.
    destruct (s !! f); [done|]. by intros [= _ <-].
  - intros f pid r t n s m s'. unfold mem_permissions_update, not_found.
    destruct (s !! f); [|by intros [= _ <-]].
    destruct (negb _); [by intros [= _ <-]|].
    destruct (_ && _); [by intros [= _ <-]|done].
  - intros f s m. unfold mem_files_get, mem_permissions_list, not_found.
    destruct (s !! f); simpl; [done|]. intros _. by eexists.
  - intros f res s id s' perms s0.
    unfold mem_permissions_list, mem_permissions_create, not_found.
    destruct (s !! f) as [file|] eqn:Hf; [|done].
    intros [= <- <-] Hnone [= <- <-].
    eexists _, _. rewrite lookup_insert_eq. split; [reflexivity|]. simpl.
    rewrite find_app_none by done. simpl.
    unfold has_email at 1. simpl. rewrite bool_decide_eq_true_2 by done. done.
  - intros f e s perms s0 p n u s'.
    unfold owner_in. simpl.
    unfold mem_permissions_list, mem_permissions_update, not_found.
    destruct (s !! f) as [file|] eqn:Hf; [|done].
    intros [= <- <-] Hfind.
    rewrite (existsb_perm_id p) by (by apply find_some in Hfind as [? _]). simpl.
    intros [= <- <-].
    eexists _, _. rewrite lookup_insert_eq. split; [reflexivity|]. simpl.
    rewrite find_map_same by (intros; apply has_email_set_role).
    rewrite Hfind. simpl. rewrite role_set_role_self. by apply bool_decide_eq_true_2.
Qed.

Section Contract.
Context {S : Type} {api : DriveApi S} (Hc : DriveContract api).

Lemma owner_in_listing (s : S) fid email perms s0 :
  permissions_list fid s = (Ok perms, s0) ->
  owner_in s fid email <-> is_owner_permission (find (has_email email) perms) = true.
Proof.
  intros Hlist. unfold owner_in. split.
  - intros (perms' & s' & Hl & Ho). rewrite Hlist in Hl. by injection Hl as <- <-.
  - intros Ho. by exists perms, s0.
Qed.

Lemma owner_in_no_listing (s : S) fid email msg s0 :
  permissions_list fid s = (Throw msg, s0) -> ~ owner_in s fid email.
Proof.
  intros Hlist (perms' & s' & Hl & _). rewrite Hlist in Hl. discriminate.
Qed.

Lemma owner_in_no_file (s : S) fid email msg s0 :
  files_get fid s = (Throw msg, s0) -> ~ owner_in s fid email.
Proof.
  intros Hget (perms' & s' & Hl & _).
  destruct (get_list api Hc fid s msg) as [m' Hm']; [by rewrite Hget|].
  rewrite Hl in Hm'. discriminate.
Qed.

(** One request of the transfer, with the state it leaves as the contract
    has it. *)
Ltac contract_step :=
  match goal with
  | H : permissions_list ?f ?s = _ |- context [permissions_list ?f ?s] =>
      rewrite H; simpl
  | |- context [files_get ?f ?s] =>
      let E := fresh "Eget" in
      destruct (files_get f s) as [[?|?] ?] eqn:E;
      pose proof (get_reads api Hc _ _ _ _ E); subst; simpl
  | |- context [permissions_list ?f ?s] =>
      let E := fresh "Elist" in
      destruct (permissions_list f s) as [[?|?] ?] eqn:E;
      pose proof (list_reads api Hc _ _ _ _ E); subst; simpl
  | |- context [find ?f ?l] =>
      let E := fresh "Efind" in destruct (find f l) as [?|] eqn:E; simpl
  | |- context [bool_decide ?P] =>
      let E := fresh "Eowner" in destruct (bool_decide P) eqn:E; simpl
  | |- context [permissions_create ?f ?r ?s] =>
      let E := fresh "Ecreate" in
      destruct (permissions_create f r s) as [[?|?] ?] eqn:E;
      [|pose proof (create_refused api Hc _ _ _ _ _ E); subst]; simpl
  | |- context [permissions_update ?f ?i ?r ?t ?n ?s] =>
      let E := fresh "Eupd" in
      destruct (permissions_update f i r t n s) as [[?|?] ?] eqn:E;
      [|pose proof (update_refused api Hc _ _ _ _ _ _ _ _ E); subst]; simpl
  end.

(** With the promotion, a transfer succeeds exactly when the target is the
    owner afterwards. *)
Lemma promoted_iff_owner fid email options (w : World S) :
  truthy (destructure options "transferOwnership" (JBool true)) = true ->
  succeeded (fst (transferFileOwnership fid email options w)) = true
  <-> owner_in (drive (snd (transferFileOwnership fid email options w))) fid email.
Proof.
  intros Hpromote. unfold_service. rewrite Hpromote.
  repeat contract_step.
  all: repeat match goal with
         | H : permissions_list _ ?s = (Ok _, _) |- context [owner_in ?s _ _] =>
             rewrite (owner_in_listing _ _ _ _ _ H)
         end.
  all: simplify_eq.
  all: try (split; [intros _|done];
            match goal with
            | H : permissions_update _ _ _ _ _ _ = (Ok _, _) |- _ =>
                eapply (update_done api Hc); eauto
            end; fail).
  all: try (split; [done|]; intros Ho;
            first [ by eapply owner_in_no_listing in Ho
                  | by eapply owner_in_no_file in Ho ]).
  all: try (rewrite ?Efind, ?Efind0; simpl; rewrite ?Eowner; split; done).
  all: match goal with
         | Hl : permissions_list _ _ = (Ok ?l, _), Hn : find _ ?l = None,
           Hcr : permissions_create _ ?res _ = (Ok _, _) |- _ =>
             destruct (create_done api Hc _ res _ _ _ _ _ Hl Hn Hcr)
               as (perms' & q & Hl' & Hq & Hrole); simpl in Hq, Hrole
         end.
  all: match goal with
       | H : permissions_list ?f ?s = _, H' : permissions_list ?f ?s = _ |- _ =>
           rewrite H in H'; injection H' as <-
       end.
  all: split; [done|]; intros Hb; rewrite ?Hq in Hb; simpl in Hb;
       apply bool_decide_eq_true_1 in Hb; congruence.
Qed.

(** Without the promotion, a transfer sends no [permissions.update]. *)
Lemma unpromoted_no_update fid email options (w : World S) :
  truthy (destructure options "transferOwnership" (JBool true)) = false ->
  Forall (fun e => match e with PermissionsUpdate _ _ _ _ _ => False | _ => True end)
    (emitted w (snd (transferFileOwnership fid email options w))).
Proof.
  intros Hpromote. unfold_service. rewrite Hpromote. run_requests.
  all: unfold emitted; simpl; repeat rewrite <- app_assoc; rewrite ?drop_app_length; simpl.
  all: by repeat constructor.
Qed.

(** Without the promotion, a transfer leaves the owner question as it was. *)
Lemma unpromoted_owner_unchanged fid email options (w : World S) :
  truthy (destructure options "transferOwnership" (JBool true)) = false ->
  owner_in (drive (snd (transferFileOwnership fid email options w))) fid email
  <-> owner_in (drive w) fid email.
Proof.
  intros Hpromote. unfold_service. rewrite Hpromote.
  repeat contract_step.
  all: try done.
  rewrite (owner_in_listing _ _ _ _ _ Elist), Efind. simpl.
  destruct (create_done api Hc _ (mkResource "writer" "user" email) _ _ _ _ _
              Elist Efind Ecreate) as (perms' & q & Hl' & Hq & Hrole).
  simpl in Hq, Hrole.
  rewrite (owner_in_listing _ _ _ _ _ Hl'), Hq. simpl.
  split; [|done]. intros Hb%bool_decide_eq_true_1. congruence.
Qed.

(** A target that is the owner before a transfer gets the answer
    "Already owner". *)
Lemma owner_already fid email options (w : World S) :
  owner_in (drive w) fid email ->
  exists fd,
    transferFileOwnership fid email options w
    = (Ok (mkOutcome true (Some "Already owner") None fid (Some (name fd)) None),
       mkWorld (drive w) (trace w ++ [FilesGet fid; PermissionsList fid])).
Proof.
  intros (perms & s' & Hlist & Howner).
  pose proof (list_reads api Hc _ _ _ _ Hlist) as ->.
  destruct (files_get fid (drive w)) as [[fd|msg] s1] eqn:Hget.
  2: { destruct (get_list api Hc fid (drive w) msg) as [m' Hm']; [by rewrite Hget|].
       rewrite Hlist in Hm'. discriminate. }
  pose proof (get_reads api Hc _ _ _ _ Hget) as ->.
  destruct (find (has_email email) perms) as [p|] eqn:Hfind; [|done].
  apply bool_decide_eq_true_1 in Howner.
  exists fd. by eapply transfer_already_owner.
Qed.

(** Where the listing has one permission per email address, the target is
    the owner exactly when some listed permission of the email has role
    owner. *)
Lemma owner_in_unique (s : S) fid email perms s0 :
  permissions_list fid s = (Ok perms, s0) ->
  (forall q q', In q perms -> In q' perms ->
                emailAddress q = Some email -> emailAddress q' = Some email -> q = q') ->
  owner_in s fid email
  <-> exists p, In p perms /\ emailAddress p = Some email /\ role p = "owner".
Proof.
  intros Hlist Huniq. rewrite (owner_in_listing _ _ _ _ _ Hlist). split.
  - destruct (find (has_email email) perms) as [p|] eqn:Hfind; [|done].
    simpl. intros Hb%bool_decide_eq_true_1.
    apply find_some in Hfind as [Hin He%bool_decide_eq_true_1]. by exists p.
  - intros (p & Hin & He & Hrole).
    rewrite (find_unique_email email perms p Hin He).
    + simpl. by apply bool_decide_eq_true_2.
    + intros q Hq Hqe. by apply Huniq.
Qed.

(** After a successful transfer without the promotion the listing has a
    permission for the target. *)
Lemma unpromoted_listed fid email options (w : World S) o w1 :
  truthy (destructure options "transferOwnership" (JBool true)) = false ->
  transferFileOwnership fid email options w = (Ok o, w1) ->
  exists perms p,
    permissions_list fid (drive w1) = (Ok perms, drive w1)
    /\ find (has_email email) perms = Some p.
Proof.
  intros Hpromote. revert o w1. unfold_service. rewrite Hpromote.
  repeat contract_step.
  all: intros o w1 Hrun; try discriminate Hrun; injection Hrun as <- <-; simpl.
  all: try (by eexists _, _).
  destruct (create_done api Hc _ (mkResource "writer" "user" email) _ _ _ _ _
              Elist Efind Ecreate) as (perms' & q & Hl' & Hq & _).
  by exists perms', q.
Qed.

(** A transfer for a target with a listed permission, without the
    promotion: the two reads and no write. *)
Lemma unpromoted_with_permission fid email options (w : World S) perms p :
  truthy (destructure options "transferOwnership" (JBool true)) = false ->
  permissions_list fid (drive w) = (Ok perms, drive w) ->
  find (has_email email) perms = Some p ->
  exists o,
    transferFileOwnership fid email options w
    = (Ok o, mkWorld (drive w) (trace w ++ [FilesGet fid; PermissionsList fid]))
    /\ success o = true.
Proof.
  intros Hpromote Hlist Hfind.
  destruct (files_get fid (drive w)) as [[fd|msg] s1] eqn:Hget.
  2: { destruct (get_list api Hc fid (drive w) msg) as [m' Hm']; [by rewrite Hget|].
       rewrite Hlist in Hm'. discriminate. }
  pose proof (get_reads api Hc _ _ _ _ Hget) as ->.
  unfold_service. rewrite Hpromote, Hget. simpl. rewrite Hlist. simpl.
  rewrite Hfind. simpl. rewrite <- app_assoc. simpl.
  destruct (bool_decide (role p = "owner")); by eexists.
Qed.

(** A transfer that follows a successful one, with the same arguments. *)
Lemma transfer_again fid email options (w : World S) o w1 :
  transferFileOwnership fid email options w = (Ok o, w1) ->
  exists o',
    transferFileOwnership fid email options w1
    = (Ok o', mkWorld (drive w1) (trace w1 ++ [FilesGet fid; PermissionsList fid]))
    /\ success o' = true
    /\ (truthy (destructure options "transferOwnership" (JBool true)) = true ->
        message o' = Some "Already owner").
Proof.
  intros Hrun.
  destruct (truthy (destructure options "transferOwnership" (JBool true))) eqn:Hpromote.
  - pose proof (proj1 (promoted_iff_owner fid email options w Hpromote)) as Ho.
    rewrite Hrun in Ho. simpl in Ho.
    destruct (transfer_inv fid email options w) as (_ & Hok & _).
    rewrite Hrun in Hok. destruct (Hok o eq_refl) as [Hs _].
    destruct (owner_already fid email options w1 (Ho Hs)) as [fd ->].
    by eexists.
  - destruct (unpromoted_listed fid email options w o w1 Hpromote Hrun)
      as (perms & p & Hlist & Hfind).
    destruct (unpromoted_with_permission fid email options w1 perms p Hpromote Hlist Hfind)
      as (o' & -> & Hs).
    by exists o'.
Qed.

End Contract.

(** ** The paths of a transfer, on every Drive *)

Section TransferPaths.
Context {S : Type} {sourceDrive : DriveApi S}.

(** What a transfer returns and which requests it makes, by what the Drive
    answers. *)
Lemma transfer_paths fid email options (w : World S) :
  let run := transferFileOwnership fid email options w in
  let promote := truthy (destructure options "transferOwnership" (JBool true)) in
  let notify := default_param (destructure options "sendNotificationEmail" (JBool false))
                  (JBool false) in
  let create := PermissionsCreate fid (mkResource "writer" "user" email) in
  let transferred fd :=
    mkOutcome true (Some "Ownership transferred successfully") None fid
      (Some (name fd)) (Some email) in
  (forall cause s1,
      files_get fid (drive w) = (Throw cause, s1) ->
      run = (Throw ("Transfer failed: Failed to get file details: " +:+ cause),
             mkWorld s1 (trace w ++ [FilesGet fid])))
  /\ (forall fd s1 cause s2,
        files_get fid (drive w) = (Ok fd, s1) ->
        permissions_list fid s1 = (Throw cause, s2) ->
        run = (Throw ("Transfer failed: Failed to get permissions: " +:+ cause),
               mkWorld s2 (trace w ++ [FilesGet fid; PermissionsList fid])))
  /\ (forall fd s1 perms s2 p,
        files_get fid (drive w) = (Ok fd, s1) ->
        permissions_list fid s1 = (Ok perms, s2) ->
        find (has_email email) perms = Some p ->
        role p = "owner" ->
        run = (Ok (mkOutcome true (Some "Already owner") None fid (Some (name fd)) None),
               mkWorld s2 (trace w ++ [FilesGet fid; PermissionsList fid])))
  /\ (forall fd s1 perms s2 cause s3,
        files_get fid (drive w) = (Ok fd, s1) ->
        permissions_list fid s1 = (Ok perms, s2) ->
        find (has_email email) perms = None ->
        permissions_create fid (mkResource "writer" "user" email) s2 = (Throw cause, s3) ->
        run = (Throw ("Transfer failed: Failed to add permission: " +:+ cause),
               mkWorld s3 (trace w ++ [FilesGet fid; PermissionsList fid; create])))
  /\ (forall fd reqs s3,
        permission_in_place fid email (drive w) fd reqs s3 ->
        (promote = false -> run = (Ok (transferred fd), mkWorld s3 (trace w ++ reqs)))
        /\ (promote = true ->
            (forall cause s4,
                permissions_list fid s3 = (Throw cause, s4) ->
                run = (Throw ("Transfer failed: Failed to promote to owner: "
                              +:+ "Failed to get permissions: " +:+ cause),
                       mkWorld s4 (trace w ++ reqs ++ [PermissionsList fid])))
            /\ (forall perms s4,
                  permissions_list fid s3 = (Ok perms, s4) ->
                  find (has_email email) perms = None ->
                  run = (Throw ("Transfer failed: Failed to promote to owner: "
                                +:+ "User " +:+ email
                                +:+ " does not have permission to this file"),
                         mkWorld s4 (trace w ++ reqs ++ [PermissionsList fid])))
            /\ (forall perms s4 p answer s5,
                  permissions_list fid s3 = (Ok perms, s4) ->
                  find (has_email email) perms = Some p ->
                  permissions_update fid (perm_id p) "owner" true notify s4 = (answer, s5) ->
                  run = (match answer with
                         | Ok _ => Ok (transferred fd)
                         | Throw cause =>
                             Throw ("Transfer failed: Failed to promote to owner: " +:+ cause)
                         end,
                         mkWorld s5
                           (trace w ++ reqs
                            ++ [PermissionsList fid;
                                PermissionsUpdate fid (perm_id p) "owner" true notify]))))).
Proof.
  intros run promote notify create transferred.
  subst run promote notify create transferred.
  split; [|split; [|split; [|split]]].
  - intros cause s1 Hget. unfold_service. by rewrite Hget.
  - intros fd s1 cause s2 Hget Hlist. unfold_service.
    rewrite Hget. simpl. rewrite Hlist. simpl. by rewrite <- app_assoc.
  - intros fd s1 perms s2 p Hget Hlist Hfind Hrole.
    by eapply transfer_already_owner.
  - intros fd s1 perms s2 cause s3 Hget Hlist Hfind Hcreate. unfold_service.
    rewrite Hget. simpl. rewrite Hlist. simpl. rewrite Hfind. simpl.
    rewrite Hcreate. simpl. by rewrite <- !app_assoc.
  - intros fd reqs s3 (s1 & perms & s2 & Hget & Hlist & Hplace).
    destruct Hplace as [(p & Hfind & Hrole & -> & ->)|(Hfind & id & Hcreate & ->)].
    + split.
      * intros Hpromote. unfold_service.
        rewrite Hget. simpl. rewrite Hlist. simpl. rewrite Hfind. simpl.
        rewrite bool_decide_eq_false_2 by done. simpl.
        rewrite Hpromote. simpl. by rewrite <- app_assoc.
      * intros Hpromote. split; [|split].
        -- intros cause s4 Hlist2. unfold_service.
           rewrite Hget. simpl. rewrite Hlist. simpl. rewrite Hfind. simpl.
           rewrite bool_decide_eq_false_2 by done. simpl.
           rewrite Hpromote. simpl. rewrite Hlist2. simpl. by rewrite <- !app_assoc.
        -- intros perms2 s4 Hlist2 Hfind2. unfold_service.
           rewrite Hget. simpl. rewrite Hlist. simpl. rewrite Hfind. simpl.
           rewrite bool_decide_eq_false_2 by done. simpl.
           rewrite Hpromote. simpl. rewrite Hlist2. simpl. rewrite Hfind2. simpl.
           by rewrite <- !app_assoc.
        -- intros perms2 s4 p2 answer s5 Hlist2 Hfind2 Hupd. unfold_service.
           rewrite Hget. simpl. rewrite Hlist. simpl. rewrite Hfind. simpl.
           rewrite bool_decide_eq_false_2 by done. simpl.
           rewrite Hpromote. simpl. rewrite Hlist2. simpl. rewrite Hfind2. simpl.
           rewrite Hupd. simpl. rewrite <- !app_assoc. by destruct answer.
    + split.
      * intros Hpromote. unfold_service.
        rewrite Hget. simpl. rewrite Hlist. simpl. rewrite Hfind. simpl.
        rewrite Hcreate. simpl. rewrite Hpromote. simpl. by rewrite <- !app_assoc.
      * intros Hpromote. split; [|split].
        -- intros cause s4 Hlist2. unfold_service.
           rewrite Hget. simpl. rewrite Hlist. simpl. rewrite Hfind. simpl.
           rewrite Hcreate. simpl.
           rewrite Hpromote. simpl. rewrite Hlist2. simpl. by rewrite <- !app_assoc.
        -- intros perms2 s4 Hlist2 Hfind2. unfold_service.
           rewrite Hget. simpl. rewrite Hlist. simpl. rewrite Hfind. simpl.
           rewrite Hcreate. simpl.
           rewrite Hpromote. simpl. rewrite Hlist2. simpl. rewrite Hfind2. simpl.
           by rewrite <- !app_assoc.
        -- intros perms2 s4 p2 answer s5 Hlist2 Hfind2 Hupd. unfold_service.
           rewrite Hget. simpl. rewrite Hlist. simpl. rewrite Hfind. simpl.
           rewrite Hcreate. simpl.
           rewrite Hpromote. simpl. rewrite Hlist2. simpl. rewrite Hfind2. simpl.
           rewrite Hupd. simpl. rewrite <- !app_assoc. by destruct answer.
Qed.

Ltac in_place :=
  eexists _, _, _; split; [eassumption|]; split; [eassumption|];
  first [ left; eexists; split; [eassumption|];
          split; [eapply bool_decide_eq_false_1; eassumption|]; split; reflexivity
        | right; split; [eassumption|]; eexists; split; [eassumption|reflexivity] ].

(** The Drive's answers that make a transfer succeed, with the promotion. *)
Lemma promoted_succeeds fid email options (w : World S) s' :
  truthy (destructure options "transferOwnership" (JBool true)) = true ->
  listed_owner fid email (drive w) s'
  \/ promotion_accepted fid email
       (default_param (destructure options "sendNotificationEmail" (JBool false))
          (JBool false)) (drive w) s' ->
  succeeded (fst (transferFileOwnership fid email options w)) = true
  /\ drive (snd (transferFileOwnership fid email options w)) = s'.
Proof.
  intros Hpromote [(fd & s1 & perms & p & Hget & Hlist & Hfind & Hrole)
                  |(fd & reqs & s3 & perms & s4 & p & u & Hin & Hlist & Hfind & Hupd)].
  - by rewrite (transfer_already_owner fid email options w fd perms p s1 s'
                  Hget Hlist Hfind Hrole).
  - destruct (transfer_paths fid email options w) as (_ & _ & _ & _ & Hplace).
    destruct (Hplace fd reqs s3 Hin) as [_ Hp].
    destruct (Hp Hpromote) as (_ & _ & Hrun).
    by rewrite (Hrun perms s4 p (Ok u) s' Hlist Hfind Hupd).
Qed.

Lemma succeeded_promoted fid email options (w : World S) :
  truthy (destructure options "transferOwnership" (JBool true)) = true ->
  succeeded (fst (transferFileOwnership fid email options w)) = true
  <-> listed_owner fid email (drive w)
        (drive (snd (transferFileOwnership fid email options w)))
      \/ promotion_accepted fid email
           (default_param (destructure options "sendNotificationEmail" (JBool false))
              (JBool false))
           (drive w) (drive (snd (transferFileOwnership fid email options w))).
Proof.
  intros Hpromote.
  split; [|intros H; by destruct (promoted_succeeds fid email options w _ Hpromote H)].
  unfold_service. rewrite Hpromote. run_requests.
  all: intros Hs; try discriminate Hs.
  - left. eexists _, _, _, _. split; [eassumption|]. split; [eassumption|].
    split; [eassumption|]. eapply bool_decide_eq_true_1; eassumption.
  - right. eexists _, _, _, _, _, _, _. split; [in_place|].
    split; [eassumption|]. split; eassumption.
  - right. eexists _, _, _, _, _, _, _. split; [in_place|].
    split; [eassumption|]. split; eassumption.
Qed.

(** The Drive's answers that make a transfer succeed, without the
    promotion. *)
Lemma unpromoted_succeeds fid email options (w : World S) s' :
  truthy (destructure options "transferOwnership" (JBool true)) = false ->
  listed_owner fid email (drive w) s'
  \/ (exists fd reqs, permission_in_place fid email (drive w) fd reqs s') ->
  succeeded (fst (transferFileOwnership fid email options w)) = true
  /\ drive (snd (transferFileOwnership fid email options w)) = s'.
Proof.
  intros Hpromote [(fd & s1 & perms & p & Hget & Hlist & Hfind & Hrole)
                  |(fd & reqs & Hin)].
  - by rewrite (transfer_already_owner fid email options w fd perms p s1 s'
                  Hget Hlist Hfind Hrole).
  - destruct (transfer_paths fid email options w) as (_ & _ & _ & _ & Hplace).
    destruct (Hplace fd reqs s' Hin) as [Hp _].
    by rewrite (Hp Hpromote).
Qed.

Lemma succeeded_unpromoted fid email options (w : World S) :
  truthy (destructure options "transferOwnership" (JBool true)) = false ->
  succeeded (fst (transferFileOwnership fid email options w)) = true
  <-> listed_owner fid email (drive w)
        (drive (snd (transferFileOwnership fid email options w)))
      \/ (exists fd reqs,
            permission_in_place fid email (drive w) fd reqs
              (drive (snd (transferFileOwnership fid email options w)))).
Proof.
  intros Hpromote.
  split; [|intros H; by destruct (unpromoted_succeeds fid email options w _ Hpromote H)].
  unfold_service. rewrite Hpromote. run_requests.
  all: intros Hs; try discriminate Hs.
  - left. eexists _, _, _, _. split; [eassumption|]. split; [eassumption|].
    split; [eassumption|]. eapply bool_decide_eq_true_1; eassumption.
  - right. eexists _, _. in_place.
  - right. eexists _, _. in_place.
Qed.

(** C2, as the code has it. For a target email that fails [isValidEmail],
    as for any other, [transferFileOwnership] goes through its requests
    with that email and stops only where the Drive refuses one: it sends
    [files.get]; when that is answered, [permissions.list]; it answers
    "Already owner" when the listed permission of the email has role owner;
    it sends [permissions.create] for the email as writer when the listing
    has no permission for it; with the permission in place it returns the
    success at once when the option [transferOwnership] is false, and
    otherwise lists again and sends [permissions.update] to owner for the
    listed permission of the email, and returns the success when that is
    accepted. Each error it throws is "Transfer failed: " and the stage and
    cause of a request the Drive refused, or of a second listing without a
    permission for the email. The check of the email is made by
    [validateTransferPreconditions], which for such an email answers
    [{valid: false, error}] after the one request [files.get]. *)
Theorem invalid_email_transferred_like_any fid email options (w : World S) :
  isValidEmail email = false ->
  let run := transferFileOwnership fid email options w in
  let promote := truthy (destructure options "transferOwnership" (JBool true)) in
  let notify := default_param (destructure options "sendNotificationEmail" (JBool false))
                  (JBool false) in
  let create := PermissionsCreate fid (mkResource "writer" "user" email) in
  let transferred fd :=
    mkOutcome true (Some "Ownership transferred successfully") None fid
      (Some (name fd)) (Some email) in
  (forall cause s1,
      files_get fid (drive w) = (Throw cause, s1) ->
      run = (Throw ("Transfer failed: Failed to get file details: " +:+ cause),
             mkWorld s1 (trace w ++ [FilesGet fid])))
  /\ (forall fd s1 cause s2,
        files_get fid (drive w) = (Ok fd, s1) ->
        permissions_list fid s1 = (Throw cause, s2) ->
        run = (Throw ("Transfer failed: Failed to get permissions: " +:+ cause),
               mkWorld s2 (trace w ++ [FilesGet fid; PermissionsList fid])))
  /\ (forall fd s1 perms s2 p,
        files_get fid (drive w) = (Ok fd, s1) ->
        permissions_list fid s1 = (Ok perms, s2) ->
        find (has_email email) perms = Some p ->
        role p = "owner" ->
        run = (Ok (mkOutcome true (Some "Already owner") None fid (Some (name fd)) None),
               mkWorld s2 (trace w ++ [FilesGet fid; PermissionsList fid])))
  /\ (forall fd s1 perms s2 cause s3,
        files_get fid (drive w) = (Ok fd, s1) ->
        permissions_list fid s1 = (Ok perms, s2) ->
        find (has_email email) perms = None ->
        permissions_create fid (mkResource "writer" "user" email) s2 = (Throw cause, s3) ->
        run = (Throw ("Transfer failed: Failed to add permission: " +:+ cause),
               mkWorld s3 (trace w ++ [FilesGet fid; PermissionsList fid; create])))
  /\ (forall fd reqs s3,
        permission_in_place fid email (drive w) fd reqs s3 ->
        (promote = false -> run = (Ok (transferred fd), mkWorld s3 (trace w ++ reqs)))
        /\ (promote = true ->
            (forall cause s4,
                permissions_list fid s3 = (Throw cause, s4) ->
                run = (Throw ("Transfer failed: Failed to promote to owner: "
                              +:+ "Failed to get permissions: " +:+ cause),
                       mkWorld s4 (trace w ++ reqs ++ [PermissionsList fid])))
            /\ (forall perms s4,
                  permissions_list fid s3 = (Ok perms, s4) ->
                  find (has_email email) perms = None ->
                  run = (Throw ("Transfer failed: Failed to promote to owner: "
                                +:+ "User " +:+ email
                                +:+ " does not have permission to this file"),
                         mkWorld s4 (trace w ++ reqs ++ [PermissionsList fid])))
            /\ (forall perms s4 p answer s5,
                  permissions_list fid s3 = (Ok perms, s4) ->
                  find (has_email email) perms = Some p ->
                  permissions_update fid (perm_id p) "owner" true notify s4 = (answer, s5) ->
                  run = (match answer with
                         | Ok _ => Ok (transferred fd)
                         | Throw cause =>
                             Throw ("Transfer failed: Failed to promote to owner: " +:+ cause)
                         end,
                         mkWorld s5
                           (trace w ++ reqs
                            ++ [PermissionsList fid;
                                PermissionsUpdate fid (perm_id p) "owner" true notify])))))
  /\ (exists msg w',
        validateTransferPreconditions fid email w = (Ok (Invalid msg), w')
        /\ trace w' = trace w ++ [FilesGet fid]).
Proof.
  intros Hinv run promote notify create transferred.
  subst run promote notify create transferred.
  destruct (transfer_paths fid email options w) as (Hget & Hlist & Howner & Hcreate & Hplace).
  split; [exact Hget|]. split; [exact Hlist|]. split; [exact Howner|].
  split; [exact Hcreate|]. split; [exact Hplace|].
  rewrite validate_run, Hinv.
  destruct (files_get fid (drive w)) as [[fd|msg] s1]; simpl.
  - destruct (owners fd) as [[|o os]|]; by eexists _, _.
  - by eexists _, _.
Qed.

(** C3, as the code has it. On every Drive, when the option
    [transferOwnership] is true (given, or by default), a transfer returns
    [success: true] if and only if the Drive listed the target as owner or,
    with the permission of the target in place, accepted its update to
    owner; on a Drive that keeps to the contract that is: if and only if
    the target is the owner of the file afterwards. When the option is
    false the transfer sends no [permissions.update] and returns
    [success: true] as soon as the permission of the target is in place; on
    a Drive that keeps to the contract the target is then the owner
    afterwards exactly when it was before, so that [success: true] is
    returned also for a target that is not the owner, while a target that
    is the owner afterwards got [success: true] whatever the options. The
    owner is read from the listing's permission for the email; with one
    permission per email address that is any listed permission of the
    email. *)
Theorem success_and_owner_role fid email options (w : World S) :
  let promote := truthy (destructure options "transferOwnership" (JBool true)) in
  let notify := default_param (destructure options "sendNotificationEmail" (JBool false))
                  (JBool false) in
  let r := fst (transferFileOwnership fid email options w) in
  let w' := snd (transferFileOwnership fid email options w) in
  (promote = true ->
   succeeded r = true
   <-> listed_owner fid email (drive w) (drive w')
       \/ promotion_accepted fid email notify (drive w) (drive w'))
  /\ (promote = false ->
      Forall (fun e => match e with PermissionsUpdate _ _ _ _ _ => False | _ => True end)
        (emitted w w')
      /\ (succeeded r = true
          <-> listed_owner fid email (drive w) (drive w')
              \/ (exists fd reqs, permission_in_place fid email (drive w) fd reqs (drive w'))))
  /\ (DriveContract sourceDrive ->
      (owner_in (drive w') fid email -> succeeded r = true)
      /\ (promote = true -> succeeded r = true <-> owner_in (drive w') fid email)
      /\ (promote = false ->
          owner_in (drive w') fid email <-> owner_in (drive w) fid email))
  /\ (forall perms s0,
        permissions_list fid (drive w') = (Ok perms, s0) ->
        (forall q q', In q perms -> In q' perms ->
                      emailAddress q = Some email -> emailAddress q' = Some email ->
                      q = q') ->
        owner_in (drive w') fid email
        <-> exists p, In p perms /\ emailAddress p = Some email /\ role p = "owner").
Proof.
  intros promote notify r w'. subst promote notify r w'.
  split; [apply succeeded_promoted|]. split; [|split].
  - intros Hpromote.
    split; [by apply unpromoted_no_update|by apply succeeded_unpromoted].
  - intros Hc. split; [|split].
    + destruct (truthy (destructure options "transferOwnership" (JBool true))) eqn:Hpromote.
      * intros Ho. by apply (promoted_iff_owner Hc).
      * intros Ho%(unpromoted_owner_unchanged Hc); [|done].
        destruct (owner_already Hc fid email options w Ho) as [fd ->]. done.
    + apply (promoted_iff_owner Hc).
    + apply (unpromoted_owner_unchanged Hc).
  - intros perms s0 Hlist Huniq. by apply (owner_in_unique _ _ _ _ _ Hlist).
Qed.

End TransferPaths.

Lemma success_and_owner_role_witness :
  DriveContract MemDrive
  /\ (succeeded (fst (transferFileOwnership "F1" bob ∅ world0)) = true
      <-> owner_in (drive (snd (transferFileOwnership "F1" bob ∅ world0))) "F1" bob)
  /\ (owner_in
        (drive (snd (transferFileOwnership "F1" bob {["transferOwnership" := JBool false]}
                       world0))) "F1" bob
      <-> owner_in (drive world0) "F1" bob).
Proof.
  split; [exact MemDrive_contract|]. split.
  - pose proof (success_and_owner_role "F1" bob ∅ world0) as H.
    cbv zeta in H. destruct H as (_ & _ & Hc & _).
    destruct (Hc MemDrive_contract) as (_ & Hiff & _). by apply Hiff.
  - pose proof (success_and_owner_role "F1" bob {["transferOwnership" := JBool false]}
                  world0) as H.
    cbv zeta in H. destruct H as (_ & _ & Hc & _).
    destruct (Hc MemDrive_contract) as (_ & _ & Hiff). by apply Hiff.
Defined.

(** ** The short-circuit on an existing owner *)

(** F5 lists a writer permission of Bob before his owner permission: the
    transfer to Bob does not answer "Already owner"; it sends a
    [permissions.update] for the writer permission. *)
Lemma owner_permission_listed_second :
  holds_owner (drive world5) "F5" bob = true
  /\ fst (transferFileOwnership "F5" bob ∅ world5)
     = Ok (mkOutcome true (Some "Ownership transferred successfully") None "F5"
             (Some "plan.txt") (Some bob))
  /\ emitted world5 (snd (transferFileOwnership "F5" bob ∅ world5))
     = [FilesGet "F5"; PermissionsList "F5"; PermissionsList "F5";
        PermissionsUpdate "F5" "p1" "owner" true (JBool false)].
Proof. vm_compute. by repeat split. Qed.

(** C4, as the code has it. On every Drive: when the file is fetched and the
    permission the listing has first for the target email has role owner
    (with one permission per email address: when any listed permission of
    the target has role owner), the transfer returns [success: true] with
    the message "Already owner" after the two read requests, and makes no
    write request. On every Drive that keeps to the contract: a transfer
    that follows a successful transfer with the same arguments succeeds
    after the two read requests, without a write request, and with the
    message "Already owner" when the option [transferOwnership] is true. *)
Theorem first_listed_owner_short_circuit {S : Type} {api : DriveApi S}
    fid email options (w : World S) :
  (forall fd perms p s1 s2,
      files_get fid (drive w) = (Ok fd, s1) ->
      permissions_list fid s1 = (Ok perms, s2) ->
      find (has_email email) perms = Some p ->
      role p = "owner" ->
      exists o w',
        transferFileOwnership fid email options w = (Ok o, w')
        /\ success o = true
        /\ message o = Some "Already owner"
        /\ drive w' = s2
        /\ emitted w w' = [FilesGet fid; PermissionsList fid]
        /\ Forall (fun e => is_write e = false) (emitted w w'))
  /\ (forall fd perms p s1 s2,
        files_get fid (drive w) = (Ok fd, s1) ->
        permissions_list fid s1 = (Ok perms, s2) ->
        In p perms ->
        emailAddress p = Some email ->
        role p = "owner" ->
        (forall q, In q perms -> emailAddress q = Some email -> q = p) ->
        exists o w',
          transferFileOwnership fid email options w = (Ok o, w')
          /\ success o = true
          /\ message o = Some "Already owner"
          /\ drive w' = s2
          /\ emitted w w' = [FilesGet fid; PermissionsList fid]
          /\ Forall (fun e => is_write e = false) (emitted w w'))
  /\ (DriveContract api ->
      forall o1 w1,
        transferFileOwnership fid email options w = (Ok o1, w1) ->
        exists o2 w2,
          transferFileOwnership fid email options w1 = (Ok o2, w2)
          /\ success o2 = true
          /\ drive w2 = drive w1
          /\ emitted w1 w2 = [FilesGet fid; PermissionsList fid]
          /\ Forall (fun e => is_write e = false) (emitted w1 w2)
          /\ (truthy (destructure options "transferOwnership" (JBool true)) = true ->
              message o2 = Some "Already owner")).
Proof.
  split; [|split].
  - intros fd perms p s1 s2 Hget Hlist Hfind Hrole.
    eexists _, _. split; [by eapply transfer_already_owner|]. simpl.
    erewrite emitted_app by reflexivity.
    repeat split; by repeat constructor.
  - intros fd perms p s1 s2 Hget Hlist Hin He Hrole Huniq.
    pose proof (find_unique_email email perms p Hin He Huniq) as Hfind.
    eexists _, _. split; [by eapply transfer_already_owner|]. simpl.
    erewrite emitted_app by reflexivity.
    repeat split; by repeat constructor.
  - intros Hc o1 w1 Hfirst.
    destruct (transfer_again Hc fid email options w o1 w1 Hfirst) as (o2 & Hrun & Hs & Hmsg).
    eexists _, _. split; [exact Hrun|]. simpl.
    erewrite emitted_app by reflexivity.
    repeat split; try done. by repeat constructor.
Qed.

Lemma first_listed_owner_short_circuit_witness :
  (exists o w',
     transferFileOwnership "F1" alice ∅ world0 = (Ok o, w')
     /\ success o = true
     /\ message o = Some "Already owner"
     /\ drive w' = drive0
     /\ emitted world0 w' = [FilesGet "F1"; PermissionsList "F1"]
     /\ Forall (fun e => is_write e = false) (emitted world0 w'))
  /\ (exists o2 w2,
        transferFileOwnership "F1" bob ∅ (snd (transferFileOwnership "F1" bob ∅ world0))
        = (Ok o2, w2)
        /\ success o2 = true
        /\ drive w2 = drive (snd (transferFileOwnership "F1" bob ∅ world0))
        /\ emitted (snd (transferFileOwnership "F1" bob ∅ world0)) w2
           = [FilesGet "F1"; PermissionsList "F1"]
        /\ Forall (fun e => is_write e = false)
             (emitted (snd (transferFileOwnership "F1" bob ∅ world0)) w2)
        /\ (truthy (destructure ∅ "transferOwnership" (JBool true)) = true ->
            message o2 = Some "Already owner")).
Proof.
  destruct (first_listed_owner_short_circuit (api := MemDrive) "F1" alice ∅ world0)
    as (Hshort & _ & _).
  destruct (first_listed_owner_short_circuit (api := MemDrive) "F1" bob ∅ world0)
    as (_ & _ & Hidem).
  split.
  - eapply Hshort; reflexivity.
  - eapply (Hidem MemDrive_contract). reflexivity.
Defined.

Lemma invalid_email_transferred_like_any_witness :
  isValidEmail "not-an-email" = false
  /\ (exists o w',
        transferFileOwnership "F1" "not-an-email" ∅ world0 = (Ok o, w')
        /\ message o = Some "Ownership transferred successfully"
        /\ emitted world0 w'
           = [FilesGet "F1"; PermissionsList "F1";
              PermissionsCreate "F1" (mkResource "writer" "user" "not-an-email");
              PermissionsList "F1";
              PermissionsUpdate "F1" "perm-not-an-email" "owner" true (JBool false)])
  /\ (exists msg w',
        validateTransferPreconditions "F1" "not-an-email" world0 = (Ok (Invalid msg), w')
        /\ trace w' = trace world0 ++ [FilesGet "F1"]).
Proof.
  split; [reflexivity|].
  pose proof (invalid_email_transferred_like_any "F1" "not-an-email" ∅ world0 eq_refl) as H.
  cbv zeta in H. destruct H as (_ & _ & _ & _ & Hplace & Hvalidate).
  split; [|exact Hvalidate].
  edestruct Hplace as [_ Hpromote].
  { eexists _, _, _. split; [reflexivity|]. split; [reflexivity|]. right.
    split; [reflexivity|]. eexists. split; reflexivity. }
  destruct (Hpromote eq_refl) as (_ & _ & Hupdate).
  erewrite Hupdate; [|reflexivity|reflexivity|reflexivity].
  eexists _, _. split; [reflexivity|]. split; reflexivity.
Defined.

(** ** The batch, file by file *)

Section BatchProcessed.
Context {S : Type} {sourceDrive : DriveApi S}.

Lemma waits_refl (w : World S) : waits w w.
Proof. split; [done|]. exists []. split; [by rewrite app_nil_r|done]. Qed.

Lemma waits_trans (w1 w2 w3 : World S) : waits w1 w2 -> waits w2 w3 -> waits w1 w3.
Proof.
  intros [Hd1 (ds1 & Ht1 & Hf1)] [Hd2 (ds2 & Ht2 & Hf2)]. split; [congruence|].
  exists (ds1 ++ ds2). split; [by rewrite Ht2, Ht1, app_assoc|by apply Forall_app].
Qed.

Lemma waits_delay ms (w : World S) : waits w (snd (delay ms w)).
Proof. split; [done|]. exists [Delay ms]. split; [done|]. by repeat constructor. Qed.

Lemma processed_waits_l email options fids (w w0 : World S) os w' :
  waits w w0 -> processed email options fids w0 os w' ->
  processed email options fids w os w'.
Proof.
  intros Hw Hp. destruct Hp as [w0 w' Hw'|fid fids w0 w1 r w2 os w' Hw' Hrun Hp].
  - constructor. by eapply waits_trans.
  - econstructor; [by eapply waits_trans|exact Hrun|exact Hp].
Qed.

Section Loop.
Variables (email : string) (options : gmap string JsVal).
Variables (d continueOnError : JsVal) (n : nat).

(** The loop transfers the files it has outcomes for, in turn, and does
    nothing else but wait. *)
Lemma batchLoop_processed rest : forall i results (w : World S),
  exists new,
    fst (batchLoop email options d continueOnError n i rest results w) = results ++ new
    /\ processed email options (take (length new) rest) w new
         (snd (batchLoop email options d continueOnError n i rest results w)).
Proof.
  induction rest as [|f rest IH]; intros i results w; simpl.
  { exists []. rewrite app_nil_r. split; [done|]. constructor. apply waits_refl. }
  destruct (transferFileOwnership f email options w) as [[o|msg] w1] eqn:E.
  - match goal with
    | |- context [batchLoop _ _ _ _ _ ?j _ ?rs ?w2] =>
        destruct (IH j rs w2) as (new & Ho & Hp);
        assert (Hw : waits w1 w2)
          by (destruct (Z.of_nat i <? Z.of_nat n - 1)%Z;
              [apply waits_delay|apply waits_refl])
    end.
    exists (o :: new). rewrite Ho, <- app_assoc. split; [done|]. simpl.
    change o with (outcome_of f (Ok o)) at 1.
    econstructor; [apply waits_refl|exact E|].
    by eapply processed_waits_l.
  - destruct (negb (truthy continueOnError)).
    + exists [mkOutcome false None (Some msg) f None None]. split; [done|]. simpl.
      rewrite take_0.
      change (mkOutcome false None (Some msg) f None None)
        with (outcome_of f (Throw msg)).
      econstructor; [apply waits_refl|exact E|]. constructor. apply waits_refl.
    + destruct (IH (Datatypes.S i)
                  (results ++ [mkOutcome false None (Some msg) f None None]) w1)
        as (new & Ho & Hp).
      exists (mkOutcome false None (Some msg) f None None :: new).
      rewrite Ho, <- app_assoc. split; [done|]. simpl.
      change (mkOutcome false None (Some msg) f None None)
        with (outcome_of f (Throw msg)) at 1.
      econstructor; [apply waits_refl|exact E|exact Hp].
Qed.

(** Without [continueOnError] the loop ends with the last file or with the
    first transfer that throws, in the world that transfer left. *)
Lemma batchLoop_halted rest : forall i results (w : World S),
  truthy continueOnError = false ->
  (exists new,
      fst (batchLoop email options d continueOnError n i rest results w) = results ++ new
      /\ Forall (fun o => success o = true) new
      /\ length new = length rest)
  \/ (exists oks f msg w0,
        fst (batchLoop email options d continueOnError n i rest results w)
        = results ++ oks ++ [mkOutcome false None (Some msg) f None None]
        /\ Forall (fun o => success o = true) oks
        /\ rest !! length oks = Some f
        /\ processed email options (take (length oks) rest) w oks w0
        /\ transferFileOwnership f email options w0
           = (Throw msg, snd (batchLoop email options d continueOnError n i rest results w))).
Proof.
  intros i results w Hcoe. revert i results w.
  induction rest as [|f rest IH]; intros i results w; simpl.
  { left. exists []. by rewrite app_nil_r. }
  pose proof (transfer_inv f email options w) as (_ & Hok & _).
  destruct (transferFileOwnership f email options w) as [[o|msg] w1] eqn:E; simpl in Hok.
  - destruct (Hok o eq_refl) as [Hs _].
    match goal with
    | |- context [batchLoop _ _ _ _ _ ?j _ ?rs ?w2] =>
        destruct (IH j rs w2) as [(new & Ho & Hall & Hlen)
                                 |(oks & f' & msg & w0 & Ho & Hall & Hf & Hp & Hrun)];
        assert (Hw : waits w1 w2)
          by (destruct (Z.of_nat i <? Z.of_nat n - 1)%Z;
              [apply waits_delay|apply waits_refl])
    end.
    + left. exists (o :: new). rewrite Ho, <- app_assoc. simpl.
      split; [done|]. split; [by constructor|by rewrite Hlen].
    + right. exists (o :: oks), f', msg, w0. rewrite Ho, <- app_assoc. simpl.
      split; [done|]. split; [by constructor|]. split; [done|]. split; [|done].
      change o with (outcome_of f (Ok o)) at 1.
      econstructor; [apply waits_refl|exact E|].
      by eapply processed_waits_l.
  - rewrite Hcoe. simpl. right. exists [], f, msg, w. simpl.
    split; [done|]. split; [done|]. split; [done|]. split; [|done].
    constructor. apply waits_refl.
Qed.

End Loop.

Lemma filter_success_all (l : list Outcome) :
  Forall (fun o => success o = true) l ->
  List.filter (fun r => success r) l = l
  /\ List.filter (fun r => negb (success r)) l = [].
Proof.
  induction 1 as [|o l Ho _ [IH1 IH2]]; simpl; [done|].
  rewrite Ho. simpl. by rewrite IH1, IH2.
Qed.

(** C5. With [continueOnError] false the batch stops at the first failure.
    The outcomes are those of a prefix of the input, and the batch did
    nothing but transfer the files of that prefix in turn, with waits in
    between. Either every file was processed with success, or the outcomes
    end with the only failure: the record of the error the transfer of that
    file threw, and the batch ends in the world that transfer left, with no
    request and no wait after it. The files after the failure have no
    outcome and are counted neither as successful nor as failed, while
    [total] is the number of input files. *)
Theorem batch_halt_on_first_failure (fileIds : list string) email options (w : World S) :
  truthy (destructure options "continueOnError" (JBool true)) = false ->
  exists r w',
    batchTransferOwnership fileIds email options w = (Ok r, w')
    /\ total (summary r) = length fileIds
    /\ map fileId (results r) = take (length (results r)) fileIds
    /\ successful (summary r) + failed (summary r) = length (results r)
    /\ successful (summary r) + failed (summary r) <= total (summary r)
    /\ processed email options (take (length (results r)) fileIds) w (results r) w'
    /\ ((Forall (fun o => success o = true) (results r)
         /\ length (results r) = length fileIds
         /\ failed (summary r) = 0)
        \/ (exists oks e msg w0,
              results r = oks ++ [e]
              /\ Forall (fun o => success o = true) oks
              /\ success e = false
              /\ fileIds !! length oks = Some (fileId e)
              /\ successful (summary r) = length oks
              /\ failed (summary r) = 1
              /\ e = mkOutcome false None (Some msg) (fileId e) None None
              /\ processed email options (take (length oks) fileIds) w oks w0
              /\ transferFileOwnership (fileId e) email options w0 = (Throw msg, w'))).
Proof.
  intros Hcoe. unfold batchTransferOwnership.
  set (d := destructure options "delayBetweenTransfers" (JNum 1000)).
  set (coe := destructure options "continueOnError" (JBool true)) in *.
  destruct (batchLoop_spec email options d coe (length fileIds) fileIds 0 [] w eq_refl)
    as (new & evs & Ho & _ & [P1 P2 _ _ _ _]).
  destruct (batchLoop_processed email options d coe (length fileIds) fileIds 0 [] w)
    as (new' & Ho' & Hproc).
  pose proof (batchLoop_halted email options d coe (length fileIds) fileIds 0 [] w Hcoe)
    as Hhalt.
  destruct (batchLoop email options d coe (length fileIds) 0 fileIds [] w) as [rs w'].
  simpl in Ho, Ho', Hproc, Hhalt. subst new new'.
  eexists _, w'. split; [reflexivity|]. simpl.
  split; [done|]. split; [done|].
  rewrite filter_partition_length. split; [done|]. split; [done|]. split; [done|].
  destruct Hhalt as [(new & -> & Hall & Hlen)
                    |(oks & f & msg & w0 & -> & Hall & Hf & Hp & Hrun)].
  - left. by destruct (filter_success_all _ Hall) as [_ ->].
  - right. exists oks, (mkOutcome false None (Some msg) f None None), msg, w0.
    destruct (filter_success_all _ Hall) as [H1 H2].
    rewrite !List.filter_app, H1, H2. simpl. rewrite app_nil_r.
    by repeat split.
Qed.

(** C7. The outcomes list the processed files in the order of the input: the
    batch did nothing but transfer the first files of the input in turn,
    with waits in between, and its outcomes are what these transfers
    returned or threw, one for each and in that order; so the i-th outcome
    is the outcome of the i-th input file id. Every input file has an
    outcome, unless [continueOnError] is false and the batch stopped at a
    failure, which is then the last outcome. *)
Theorem batch_outcomes_in_input_order (fileIds : list string) email options (w : World S) :
  exists r w',
    batchTransferOwnership fileIds email options w = (Ok r, w')
    /\ length (results r) <= length fileIds
    /\ map fileId (results r) = take (length (results r)) fileIds
    /\ (forall i o, results r !! i = Some o -> fileIds !! i = Some (fileId o))
    /\ processed email options (take (length (results r)) fileIds) w (results r) w'
    /\ (length (results r) = length fileIds
        \/ (truthy (destructure options "continueOnError" (JBool true)) = false
            /\ exists o, last (results r) = Some o /\ success o = false)).
Proof.
  unfold batchTransferOwnership.
  set (d := destructure options "delayBetweenTransfers" (JNum 1000)).
  set (coe := destructure options "continueOnError" (JBool true)).
  destruct (batchLoop_spec email options d coe (length fileIds) fileIds 0 [] w eq_refl)
    as (new & evs & Ho & _ & [P1 P2 P3 P4 _ _]).
  destruct (batchLoop_processed email options d coe (length fileIds) fileIds 0 [] w)
    as (new' & Ho' & Hproc).
  destruct (batchLoop email options d coe (length fileIds) 0 fileIds [] w) as [rs w'].
  simpl in Ho, Ho', Hproc. subst new new'.
  eexists _, w'. split; [reflexivity|]. simpl.
  split; [done|]. split; [done|]. split; [|split; [done|]].
  - intros i o Hi.
    assert (Hlt : i < length rs) by (by eapply lookup_lt_Some).
    assert (Hm : map fileId rs !! i = Some (fileId o)).
    { change (map fileId rs) with (fileId <$> rs). by rewrite list_lookup_fmap, Hi. }
    rewrite P1 in Hm. by rewrite lookup_take_lt in Hm.
  - destruct (truthy coe) eqn:Hcoe; [left; by apply P3|].
    destruct (P4 eq_refl) as [[_ Hlen]|(oks & e & -> & _ & He)]; [by left|].
    right. split; [done|]. exists e. by rewrite last_snoc.
Qed.

End BatchProcessed.

Lemma batch_halt_on_first_failure_witness :
  truthy (destructure {["continueOnError" := JBool false]} "continueOnError" (JBool true))
  = false
  /\ exists r w',
       batchTransferOwnership ["F1"; "F2"; "F3"] bob
         {["continueOnError" := JBool false]} world0 = (Ok r, w')
       /\ total (summary r) = 3
       /\ map fileId (results r) = take (length (results r)) ["F1"; "F2"; "F3"]
       /\ successful (summary r) + failed (summary r) = length (results r)
       /\ successful (summary r) + failed (summary r) <= total (summary r)
       /\ processed bob {["continueOnError" := JBool false]}
            (take (length (results r)) ["F1"; "F2"; "F3"]) world0 (results r) w'
       /\ ((Forall (fun o => success o = true) (results r)
            /\ length (results r) = 3
            /\ failed (summary r) = 0)
           \/ (exists oks e msg w0,
                 results r = oks ++ [e]
                 /\ Forall (fun o => success o = true) oks
                 /\ success e = false
                 /\ ["F1"; "F2"; "F3"] !! length oks = Some (fileId e)
                 /\ successful (summary r) = length oks
                 /\ failed (summary r) = 1
                 /\ e = mkOutcome false None (Some msg) (fileId e) None None
                 /\ processed bob {["continueOnError" := JBool false]}
                      (take (length oks) ["F1"; "F2"; "F3"]) world0 oks w0
                 /\ transferFileOwnership (fileId e) bob
                      {["continueOnError" := JBool false]} w0 = (Throw msg, w'))).
Proof.
  split; [reflexivity|].
  apply (batch_halt_on_first_failure ["F1"; "F2"; "F3"] bob
           {["continueOnError" := JBool false]} world0).
  reflexivity.
Defined.

(** ** The name of the pacing option *)

Section PacingOption.
Context {S : Type} {sourceDrive : DriveApi S}.


End PacingOption.

